(** * A client-side task list: the task store of [src/app/page.tsx]

    The component [Home] keeps five pieces of React state (the task
    collection, the text of the input box, the filter, the id of the task
    being edited and its working text), updates them from event handlers and
    mirrors the collection into [localStorage] under the key ["todos:v1"].

    The development follows the file top-down: JavaScript strings and
    numbers, the platform functions the file calls ([String.prototype.trim],
    [JSON.stringify], [JSON.parse], the Web Storage methods, [console.warn]),
    the [Todo] record, [loadTodos] and [saveTodos], and the handlers of
    [Home] as functions on its state, the events the markup binds them to
    with the saving effect, and the data the markup shows.  Class names,
    texts of the page and the focus effect are left out.  The properties
    come after the definitions: those of the handlers, of the serialization,
    of loading and saving, and of the component over runs of events and in
    what it renders. *)

From Stdlib Require Import ZArith NArith Lia List Ascii String.
From stdpp Require Import base list gmap.

Local Open Scope N_scope.

(** ** JavaScript strings

    A JavaScript string is a finite sequence of UTF-16 code units.  A code
    unit is kept as a binary natural number (below [2^16]); a string is the
    list of its code units, and [===] on strings is equality of the lists. *)

Abbreviation code_unit := N.
Abbreviation js_string := (list N).

(** [u "abc"] is the string whose code units are the character codes of the
    literal; it is only used to write program constants and examples. *)
Definition u (s : string) : js_string :=
  List.map N_of_ascii (list_ascii_of_string s).

(** JSON text written with apostrophes in the place of quotation marks; it
    is only used to write examples. *)
Definition json_text (s : string) : js_string :=
  List.map (fun c => if c =? 39 then 34 else c) (u s).

(** [s === t] on strings. *)
Definition str_eqb (s t : js_string) : bool := bool_decide (s = t).

(** Truthiness of a string: only the empty string is falsy. *)
Definition truthy_string (s : js_string) : bool :=
  match s with [] => false | _ :: _ => true end.

(** *** [String.prototype.trim]

    [trim] strips the code units of the productions WhiteSpace and
    LineTerminator of ECMA-262 from both ends: TAB, LF, VT, FF, CR, SP, NBSP,
    U+1680, U+2000..U+200A, LS, PS, U+202F, U+205F, U+3000 and the BOM. *)

Definition is_white_space (c : code_unit) : bool :=
  (9 <=? c) && (c <=? 13)
  || (c =? 32) || (c =? 160) || (c =? 5760)
  || (8192 <=? c) && (c <=? 8202)
  || (c =? 8232) || (c =? 8233) || (c =? 8239) || (c =? 8287)
  || (c =? 12288) || (c =? 65279).

Fixpoint trimStart (s : js_string) : js_string :=
  match s with
  | c :: r => if is_white_space c then trimStart r else s
  | [] => []
  end.

Definition trimEnd (s : js_string) : js_string := rev (trimStart (rev s)).

Definition trim (s : js_string) : js_string := trimEnd (trimStart s).

(** ** JavaScript numbers

    [createdAt] is a [number].  The finite numbers the model keeps are the
    decimals [mant * 10^expo], in the normal form [mk_finite] computes (an
    integer has exponent 0, a fraction has no trailing zero digit); next to
    them stand the three values that are not finite.  JavaScript rounds a
    decimal to the nearest binary64 value, to an infinity beyond the range,
    and has a negative zero; the model keeps the decimal as it is and has
    one zero.  So it agrees with the engine on the decimals that are binary64
    values themselves, and in particular on every integer of magnitude at
    most [2^53], which covers the millisecond timestamps [Date.now()]
    returns. *)

Inductive number :=
| Finite (mant expo : Z)
| NaN
| Infinity
| NegInfinity.

Fixpoint strip_zeros (fuel : nat) (m e : Z) : Z * Z :=
  match fuel with
  | O => (m, e)
  | S f =>
      if ((e <? 0)%Z && (m mod 10 =? 0)%Z)%bool
      then strip_zeros f (m / 10)%Z (e + 1)%Z
      else (m, e)
  end.

Definition mk_finite (m e : Z) : number :=
  if (0 <=? e)%Z then Finite (m * 10 ^ e)%Z 0
  else let '(m', e') := strip_zeros (Z.to_nat (- e)) m e in Finite m' e'.

Definition of_Z (z : Z) : number := Finite z 0.

(** ** JavaScript values

    The values [JSON.parse] can return: [null], booleans, numbers, strings,
    arrays and plain objects.  An object is the list of its own properties in
    enumeration order: array-index keys in ascending numeric order first, then
    the other keys in the order they were created. *)

#[local] Set Warnings "-register-all".

Inductive JSValue :=
| JNull
| JBool (b : bool)
| JNumber (n : number)
| JString (s : js_string)
| JArray (xs : list JSValue)
| JObject (props : list (js_string * JSValue)).

(** *** Decimal digits *)

Definition is_digit (c : code_unit) : bool := (48 <=? c) && (c <=? 57).

(** The digits of [n], least significant first; [fuel] bounds their number. *)
Fixpoint digits_rev (fuel : nat) (n : N) : list code_unit :=
  match fuel with
  | O => []
  | S f => if n =? 0 then [] else (48 + n mod 10) :: digits_rev f (n / 10)
  end.

(** The decimal digits of [n > 0], most significant first (no digit for 0). *)
Definition digits (n : N) : js_string :=
  rev (digits_rev (N.to_nat (N.size n)) n).

(** The number a digit string denotes. *)
Definition digits_value (ds : js_string) : N :=
  fold_left (fun a d => a * 10 + (d - 48)) ds 0.

(** The longest prefix of digits, and what follows it. *)
Fixpoint read_digits (s : js_string) : js_string * js_string :=
  match s with
  | c :: r =>
      if is_digit c then let '(ds, r') := read_digits r in (c :: ds, r')
      else ([], s)
  | [] => ([], [])
  end.

(** *** Property keys and own properties *)

(** A key is an array index when it is the canonical decimal form of an
    integer below [2^32 - 1]. *)
Definition array_index (k : js_string) : option N :=
  match k with
  | [] => None
  | c :: r =>
      if forallb is_digit k && (negb (c =? 48) || match r with [] => true | _ => false end)
         && (digits_value k <? 4294967295)
      then Some (digits_value k) else None
  end.

Fixpoint has_property (k : js_string) (props : list (js_string * JSValue)) : bool :=
  match props with
  | [] => false
  | (k', _) :: r => str_eqb k' k || has_property k r
  end.

Fixpoint get_property (k : js_string) (props : list (js_string * JSValue)) : option JSValue :=
  match props with
  | [] => None
  | (k', v) :: r => if str_eqb k' k then Some v else get_property k r
  end.

Fixpoint replace_property (k : js_string) (v : JSValue) (props : list (js_string * JSValue))
  : list (js_string * JSValue) :=
  match props with
  | [] => []
  | (k', v') :: r =>
      if str_eqb k' k then (k, v) :: r else (k', v') :: replace_property k v r
  end.

(** A new array-index key goes before the first key that is not an index or
    is a larger index. *)
Fixpoint insert_index (i : N) (k : js_string) (v : JSValue) (props : list (js_string * JSValue))
  : list (js_string * JSValue) :=
  match props with
  | [] => [(k, v)]
  | (k', v') :: r =>
      match array_index k' with
      | Some j => if j <? i then (k', v') :: insert_index i k v r
                  else (k, v) :: props
      | None => (k, v) :: props
      end
  end.

(** [CreateDataProperty(obj, k, v)] on an ordinary object. *)
Definition define_property (k : js_string) (v : JSValue) (props : list (js_string * JSValue))
  : list (js_string * JSValue) :=
  if has_property k props then replace_property k v props
  else match array_index k with
       | Some i => insert_index i k v props
       | None => props ++ [(k, v)]
       end.

(** *** [Number::toString] in radix 10

    For a finite, non-zero number ECMA-262 takes the integers [n], [k] and
    [s] with [k] as small as possible such that [s] has [k] digits and the
    number is [s * 10^(n-k)], and chooses among four layouts by comparing
    [n] with [k], 0, 21 and -6. *)

Fixpoint drop_zeros (ds : js_string) : js_string :=
  match ds with
  | c :: r => if c =? 48 then drop_zeros r else ds
  | [] => []
  end.

Definition zeros (n : nat) : js_string := repeat 48 n.

Definition unsigned_toString (m : N) (e : Z) : js_string :=
  let raw := digits m in
  let s := rev (drop_zeros (rev raw)) in
  let k := Z.of_nat (length s) in
  let n := (Z.of_nat (length raw) + e)%Z in
  if ((k <=? n) && (n <=? 21))%Z then
    s ++ zeros (Z.to_nat (n - k))
  else if ((0 <? n) && (n <=? 21))%Z then
    List.firstn (Z.to_nat n) s ++ [46] ++ List.skipn (Z.to_nat n) s
  else if ((-6 <? n) && (n <=? 0))%Z then
    [48; 46] ++ zeros (Z.to_nat (- n)) ++ s
  else
    let ex := (n - 1)%Z in
    (match s with
     | d :: (_ :: _) as r => d :: 46 :: r
     | _ => s
     end)
    ++ [101] ++ (if (0 <=? ex)%Z then [43] else [45]) ++ digits (Z.abs_N ex).

Definition Number_toString (x : number) : js_string :=
  match x with
  | NaN => u "NaN"
  | Infinity => u "Infinity"
  | NegInfinity => u "-Infinity"
  | Finite m e =>
      if (m =? 0)%Z then [48]
      else (if (m <? 0)%Z then [45] else []) ++ unsigned_toString (Z.abs_N m) e
  end.

(** ** [JSON] *)

Module JSON.

(** *** [JSON.stringify] *)

Definition is_leading_surrogate (c : code_unit) : bool := (55296 <=? c) && (c <=? 56319).
Definition is_trailing_surrogate (c : code_unit) : bool := (56320 <=? c) && (c <=? 57343).

Definition hex_digit (d : N) : code_unit := if d <? 10 then 48 + d else 87 + d.

(** [\uXXXX], four lower-case hexadecimal digits. *)
Definition unicode_escape (c : code_unit) : js_string :=
  [92; 117; hex_digit (c / 4096 mod 16); hex_digit (c / 256 mod 16);
   hex_digit (c / 16 mod 16); hex_digit (c mod 16)].

(** One code unit that is not part of a surrogate pair. *)
Definition quote_unit (c : code_unit) : js_string :=
  if c =? 8 then [92; 98]
  else if c =? 9 then [92; 116]
  else if c =? 10 then [92; 110]
  else if c =? 12 then [92; 102]
  else if c =? 13 then [92; 114]
  else if c =? 34 then [92; 34]
  else if c =? 92 then [92; 92]
  else if (c <? 32) || is_leading_surrogate c || is_trailing_surrogate c
  then unicode_escape c
  else [c].

(** The string is read by code points: a leading surrogate followed by a
    trailing one is one code point and is copied; a lone surrogate is
    escaped. *)
Fixpoint quote_units (s : js_string) : js_string :=
  match s with
  | [] => []
  | c :: r =>
      if is_leading_surrogate c then
        match r with
        | d :: r' =>
            if is_trailing_surrogate d then c :: d :: quote_units r'
            else unicode_escape c ++ quote_units r
        | [] => unicode_escape c
        end
      else quote_unit c ++ quote_units r
  end.

(** [QuoteJSONString]. *)
Definition quote (s : js_string) : js_string := [34] ++ quote_units s ++ [34].

(** A number that is not finite is serialized as [null]. *)
Definition number_text (x : number) : js_string :=
  match x with
  | Finite _ _ => Number_toString x
  | _ => u "null"
  end.

Fixpoint join (parts : list js_string) : js_string :=
  match parts with
  | [] => []
  | [p] => p
  | p :: r => p ++ [44] ++ join r
  end.

(** [JSON.stringify(value)] with no replacer and no indentation. *)
Fixpoint stringify (v : JSValue) : js_string :=
  match v with
  | JNull => u "null"
  | JBool true => u "true"
  | JBool false => u "false"
  | JNumber x => number_text x
  | JString s => quote s
  | JArray xs => [91] ++ join (List.map stringify xs) ++ [93]
  | JObject props =>
      [123] ++ join (List.map (fun kv => quote (fst kv) ++ [58] ++ stringify (snd kv)) props)
            ++ [125]
  end.

(** *** [JSON.parse]

    A recursive-descent reader of the JSON grammar (ECMA-404).  Scanning a
    string literal, a number or white space is structural in the text;
    nested values are read with a fuel that [parse] sets from the length
    of the text. *)

Inductive parsed (A : Type) :=
| Parsed (a : A) (rest : js_string)
| Malformed
| Exhausted.
Arguments Parsed {A} a rest.
Arguments Malformed {A}.
Arguments Exhausted {A}.

Definition is_ws (c : code_unit) : bool :=
  (c =? 32) || (c =? 9) || (c =? 10) || (c =? 13).

Fixpoint skip_ws (s : js_string) : js_string :=
  match s with
  | c :: r => if is_ws c then skip_ws r else s
  | [] => []
  end.

(** [expect c s]: the text after [c] when [s] starts with [c]. *)
Definition expect (c : code_unit) (s : js_string) : option js_string :=
  match s with
  | x :: r => if x =? c then Some r else None
  | [] => None
  end.

Fixpoint expect_all (p s : js_string) : option js_string :=
  match p with
  | [] => Some s
  | c :: p' => match expect c s with
               | Some r => expect_all p' r
               | None => None
               end
  end.

Definition hex_value (c : code_unit) : option N :=
  if is_digit c then Some (c - 48)
  else if (97 <=? c) && (c <=? 102) then Some (c - 87)
  else if (65 <=? c) && (c <=? 70) then Some (c - 55)
  else None.

(** The characters of a string literal after its opening quote. *)
Fixpoint parse_chars (s : js_string) : option (js_string * js_string) :=
  match s with
  | [] => None
  | c :: r =>
      if c =? 34 then Some ([], r)
      else if c =? 92 then
        match r with
        | [] => None
        | e :: r1 =>
            let simple (x : code_unit) :=
              match parse_chars r1 with
              | Some (str, r') => Some (x :: str, r')
              | None => None
              end in
            if e =? 34 then simple 34
            else if e =? 92 then simple 92
            else if e =? 47 then simple 47
            else if e =? 98 then simple 8
            else if e =? 102 then simple 12
            else if e =? 110 then simple 10
            else if e =? 114 then simple 13
            else if e =? 116 then simple 9
            else if e =? 117 then
              match r1 with
              | a :: b :: c' :: d :: r2 =>
                  match hex_value a, hex_value b, hex_value c', hex_value d with
                  | Some ha, Some hb, Some hc, Some hd =>
                      match parse_chars r2 with
                      | Some (str, r') =>
                          Some (ha * 4096 + hb * 256 + hc * 16 + hd :: str, r')
                      | None => None
                      end
                  | _, _, _, _ => None
                  end
              | _ => None
              end
            else None
        end
      else if c <? 32 then None
      else match parse_chars r with
           | Some (str, r') => Some (c :: str, r')
           | None => None
           end
  end.

(** A number literal: an optional minus sign; an integer part, which is a
    single 0 or a non-zero digit followed by digits; an optional fraction,
    a point and at least one digit; an optional exponent, e or E, an
    optional sign and at least one digit. *)
Definition parse_int_part (s : js_string) : option (js_string * js_string) :=
  match s with
  | c :: r =>
      if c =? 48 then Some ([48], r)
      else if is_digit c then Some (read_digits s)
      else None
  | [] => None
  end.

Definition parse_frac_part (s : js_string) : option (js_string * js_string) :=
  match s with
  | c :: r =>
      if c =? 46 then
        match read_digits r with
        | ([], _) => None
        | (ds, r') => Some (ds, r')
        end
      else Some ([], s)
  | [] => Some ([], [])
  end.

Definition parse_exp_part (s : js_string) : option (Z * js_string) :=
  match s with
  | c :: r =>
      if (c =? 101) || (c =? 69) then
        let '(neg, r1) :=
          match r with
          | x :: r' => if x =? 45 then (true, r')
                       else if x =? 43 then (false, r') else (false, r)
          | [] => (false, r)
          end in
        match read_digits r1 with
        | ([], _) => None
        | (ds, r2) =>
            let x := Z.of_N (digits_value ds) in
            Some (if neg then (- x)%Z else x, r2)
        end
      else Some (0%Z, s)
  | [] => Some (0%Z, [])
  end.

(** The digits of the integer and fraction parts as one integer, and the
    power of ten that places the decimal point. *)
Definition parse_decimal (s : js_string) : option (N * Z * js_string) :=
  match parse_int_part s with
  | None => None
  | Some (int, s2) =>
      match parse_frac_part s2 with
      | None => None
      | Some (frac, s3) =>
          match parse_exp_part s3 with
          | None => None
          | Some (ex, s4) =>
              Some (digits_value (int ++ frac), (ex - Z.of_nat (length frac))%Z, s4)
          end
      end
  end.

Definition parse_number (s : js_string) : option (number * js_string) :=
  let '(neg, s1) :=
    match s with
    | c :: r => if c =? 45 then (true, r) else (false, s)
    | [] => (false, s)
    end in
  match parse_decimal s1 with
  | None => None
  | Some (m, e, s2) =>
      Some (mk_finite (if neg then (- Z.of_N m)%Z else Z.of_N m) e, s2)
  end.

Definition lift {A B} (f : A -> B) (r : option (A * js_string)) : parsed B :=
  match r with
  | Some (a, rest) => Parsed (f a) rest
  | None => Malformed
  end.

Fixpoint parse_value (fuel : nat) (s : js_string) : parsed JSValue :=
  match fuel with
  | O => Exhausted
  | S f =>
      match skip_ws s with
      | [] => Malformed
      | c :: r =>
          if c =? 34 then lift JString (parse_chars r)
          else if c =? 91 then
            match expect 93 (skip_ws r) with
            | Some r' => Parsed (JArray []) r'
            | None => parse_elements f r []
            end
          else if c =? 123 then
            match expect 125 (skip_ws r) with
            | Some r' => Parsed (JObject []) r'
            | None => parse_members f r []
            end
          else if c =? 110 then lift (fun _ => JNull) (option_map (pair tt) (expect_all (u "ull") r))
          else if c =? 116 then lift (fun _ => JBool true) (option_map (pair tt) (expect_all (u "rue") r))
          else if c =? 102 then lift (fun _ => JBool false) (option_map (pair tt) (expect_all (u "alse") r))
          else lift JNumber (parse_number (c :: r))
      end
  end

(** The elements of an array after [acc], up to the closing bracket. *)
with parse_elements (fuel : nat) (s : js_string) (acc : list JSValue) : parsed JSValue :=
  match fuel with
  | O => Exhausted
  | S f =>
      match parse_value f s with
      | Parsed v r =>
          match skip_ws r with
          | c :: r' =>
              if c =? 44 then parse_elements f r' (acc ++ [v])
              else if c =? 93 then Parsed (JArray (acc ++ [v])) r'
              else Malformed
          | [] => Malformed
          end
      | Malformed => Malformed
      | Exhausted => Exhausted
      end
  end

(** The members of an object after [acc], up to the closing brace. *)
with parse_members (fuel : nat) (s : js_string) (acc : list (js_string * JSValue))
  : parsed JSValue :=
  match fuel with
  | O => Exhausted
  | S f =>
      match expect 34 (skip_ws s) with
      | None => Malformed
      | Some r =>
          match parse_chars r with
          | None => Malformed
          | Some (k, r1) =>
              match expect 58 (skip_ws r1) with
              | None => Malformed
              | Some r2 =>
                  match parse_value f r2 with
                  | Parsed v r3 =>
                      match skip_ws r3 with
                      | c :: r4 =>
                          if c =? 44 then parse_members f r4 (define_property k v acc)
                          else if c =? 125 then Parsed (JObject (define_property k v acc)) r4
                          else Malformed
                      | [] => Malformed
                      end
                  | Malformed => Malformed
                  | Exhausted => Exhausted
                  end
              end
          end
      end
  end.

(** [JSON.parse(text)] with no reviver: the value of the text, or [None]
    where the engine throws a [SyntaxError].  One value, white space
    around it and nothing else. *)
Definition parse (text : js_string) : option JSValue :=
  match parse_value (2 * length text + 2) text with
  | Parsed v rest => match skip_ws rest with [] => Some v | _ :: _ => None end
  | Malformed => None
  | Exhausted => None
  end.

End JSON.

(** ** The task record

    [type Todo = { id: string; text: string; completed: boolean;
    createdAt: number }]. *)

Module Todo.

Record t := mk {
  id : js_string;
  text : js_string;
  completed : bool;
  createdAt : number
}.

(** [{ ...t, completed: c }] and [{ ...t, text: x }]: a copy of the task
    with one field replaced. *)
Definition with_completed (x : t) (c : bool) : t :=
  {| id := id x; text := text x; completed := c; createdAt := createdAt x |}.

Definition with_text (x : t) (s : js_string) : t :=
  {| id := id x; text := s; completed := completed x; createdAt := createdAt x |}.

(** The object a task is at run time: its four properties in the order the
    object literal of [addTodo] creates them, which the spread copies
    keep. *)
Definition to_value (x : t) : JSValue :=
  JObject [(u "id", JString (id x)); (u "text", JString (text x));
           (u "completed", JBool (completed x));
           (u "createdAt", JNumber (createdAt x))].

(** Whether a value has the shape of the type [Todo]. *)
Definition has_shape (v : JSValue) : bool :=
  match v with
  | JObject props =>
      match get_property (u "id") props, get_property (u "text") props,
            get_property (u "completed") props, get_property (u "createdAt") props with
      | Some (JString _), Some (JString _), Some (JBool _), Some (JNumber _) => true
      | _, _, _, _ => false
      end
  | _ => false
  end.

End Todo.

Abbreviation Todo := Todo.t.

(** The array a collection is at run time, and whether a value has the shape
    of the type [Todo[]]. *)
Definition todos_value (c : list Todo) : JSValue := JArray (List.map Todo.to_value c).

Definition is_todo_array (v : JSValue) : bool :=
  match v with
  | JArray xs => forallb Todo.has_shape xs
  | _ => false
  end.

(** ** Exceptions, the console and the local storage *)

Inductive Error := SyntaxError | SecurityError | QuotaExceededError.

Inductive Completion (A : Type) :=
| Normal (a : A)
| Throw (e : Error).
Arguments Normal {A} a.
Arguments Throw {A} e.

(** The storage area of the origin: whether the page may use it at all (a
    browser that blocks storage throws a [SecurityError] at every access),
    how many code units it may hold, and its items. *)
Record Storage := mkStorage {
  accessible : bool;
  quota : nat;
  items : gmap (list N) (list N)
}.

Definition used (m : gmap (list N) (list N)) : nat :=
  map_fold (fun k v n => (length k + length v + n)%nat) 0%nat m.

(** What the program can observe and change: the storage area and the
    warnings written to the console. *)
Record World := mkWorld {
  storage : Storage;
  console : list (js_string * Error)
}.

(** A computation runs in a world and completes normally or abruptly. *)
Definition Eff (A : Type) : Type := World -> Completion A * World.

Definition ret {A} (a : A) : Eff A := fun w => (Normal a, w).

Definition throw {A} (e : Error) : Eff A := fun w => (Throw e, w).

Definition bind {A B} (c : Eff A) (k : A -> Eff B) : Eff B :=
  fun w => match c w with
           | (Normal a, w') => k a w'
           | (Throw e, w') => (Throw e, w')
           end.

(** [try { body } catch (e) { handler }]. *)
Definition try_catch {A} (body : Eff A) (handler : Error -> Eff A) : Eff A :=
  fun w => match body w with
           | (Normal a, w') => (Normal a, w')
           | (Throw e, w') => handler e w'
           end.

Notation "'let!' x ':=' c 'in' k" := (bind c (fun x => k))
  (at level 10, x name, c at level 100, k at level 200).
Notation "c '>>' k" := (bind c (fun _ => k))
  (at level 62, right associativity).

Module localStorage.

Definition getItem (key : js_string) : Eff (option js_string) :=
  fun w =>
    if accessible (storage w) then (Normal (items (storage w) !! key), w)
    else (Throw SecurityError, w).

(** A write that would take the area over its quota throws a
    [QuotaExceededError] and leaves the area as it was. *)
Definition setItem (key value : js_string) : Eff unit :=
  fun w =>
    let st := storage w in
    if accessible st then
      let items' := <[key := value]> (items st) in
      if (used items' <=? quota st)%nat then
        (Normal tt,
         {| storage := {| accessible := true; quota := quota st; items := items' |};
            console := console w |})
      else (Throw QuotaExceededError, w)
    else (Throw SecurityError, w).

End localStorage.

Module console.

Definition warn (message : js_string) (e : Error) : Eff unit :=
  fun w => (Normal tt,
            {| storage := storage w; console := console w ++ [(message, e)] |}).

End console.

(** [JSON.parse] as a computation: a [SyntaxError] where the text is not
    JSON. *)
Definition JSON_parse (text : js_string) : Eff JSValue :=
  match JSON.parse text with
  | Some v => ret v
  | None => throw SyntaxError
  end.

(** ** Loading and saving *)

Definition STORAGE_KEY : js_string := u "todos:v1".

(** [if (!raw) return []]: [null] and the empty string are falsy.  The cast
    [as Todo[]] is erased at run time: [loadTodos] returns whatever value
    [JSON.parse] produced. *)
Definition loadTodos : Eff JSValue :=
  try_catch
    (let! raw := localStorage.getItem STORAGE_KEY in
     match raw with
     | Some text => if truthy_string text then JSON_parse text else ret (JArray [])
     | None => ret (JArray [])
     end)
    (fun e => console.warn (u "Failed to load todos") e >> ret (JArray [])).

Definition saveTodos (todos : list Todo) : Eff unit :=
  try_catch
    (localStorage.setItem STORAGE_KEY (JSON.stringify (todos_value todos)))
    (fun e => console.warn (u "Failed to save todos") e).

(** ** The component [Home] *)

Module Home.

(** The filter is the union type ["all" | "active" | "completed"]. *)
Inductive Filter := all | active | completed.

(** The five [useState] cells of the component. *)
Record State := mkState {
  todos : list Todo;
  text : js_string;
  filter : Filter;
  editingId : option js_string;
  editingText : js_string
}.

(** State setters.  A setter called with a value replaces the cell; the
    three handlers that change the collection call [setTodos] with an
    updater function, which React applies to the current collection. *)
Definition setTodos (f : list Todo -> list Todo) (st : State) : State :=
  {| todos := f (todos st); text := text st; filter := filter st;
     editingId := editingId st; editingText := editingText st |}.

Definition setText (x : js_string) (st : State) : State :=
  {| todos := todos st; text := x; filter := filter st;
     editingId := editingId st; editingText := editingText st |}.

Definition setFilter (f : Filter) (st : State) : State :=
  {| todos := todos st; text := text st; filter := f;
     editingId := editingId st; editingText := editingText st |}.

Definition setEditingId (i : option js_string) (st : State) : State :=
  {| todos := todos st; text := text st; filter := filter st;
     editingId := i; editingText := editingText st |}.

Definition setEditingText (x : js_string) (st : State) : State :=
  {| todos := todos st; text := text st; filter := filter st;
     editingId := editingId st; editingText := x |}.

(** [addTodo]: the identifier comes from [uuidv4()] and the timestamp from
    [Date.now()]; both are read from the environment, so the handler takes
    them as arguments.  [e?.preventDefault()] only concerns the form
    event. *)
Definition addTodo (uuid : js_string) (now : number) (st : State) : State :=
  let trimmed := trim (text st) in
  if negb (truthy_string trimmed) then st
  else
    let newTodo := {| Todo.id := uuid; Todo.text := trimmed;
                      Todo.completed := false; Todo.createdAt := now |} in
    setText [] (setTodos (fun s => newTodo :: s) st).

Definition toggleTodo (i : js_string) (st : State) : State :=
  setTodos
    (fun s => List.map
       (fun t => if str_eqb (Todo.id t) i
                 then Todo.with_completed t (negb (Todo.completed t))
                 else t) s)
    st.

Definition removeTodo (i : js_string) (st : State) : State :=
  setTodos (fun s => List.filter (fun t => negb (str_eqb (Todo.id t) i)) s) st.

Definition startEdit (todo : Todo) (st : State) : State :=
  setEditingText (Todo.text todo) (setEditingId (Some (Todo.id todo)) st).

Definition cancelEdit (st : State) : State :=
  setEditingText [] (setEditingId None st).

Definition saveEdit (i : js_string) (st : State) : State :=
  let trimmed := trim (editingText st) in
  if negb (truthy_string trimmed) then
    (* if empty after edit, remove *)
    cancelEdit (removeTodo i st)
  else
    cancelEdit
      (setTodos
         (fun s => List.map
            (fun t => if str_eqb (Todo.id t) i
                      then Todo.with_text t trimmed
                      else t) s)
         st).

Definition clearCompleted (st : State) : State :=
  setTodos (fun s => List.filter (fun t => negb (Todo.completed t)) s) st.

(** [visible] is recomputed at every render from the collection and the
    filter. *)
Definition visible (st : State) : list Todo :=
  List.filter
    (fun t =>
       match filter st with
       | all => true
       | active => negb (Todo.completed t)
       | completed => Todo.completed t
       end)
    (todos st).

(** *** The inline handlers and the event loop *)

(** [onKeyDown] of the edit box: two tests in a row on [e.key]. *)
Definition onKeyDown (key i : js_string) (st : State) : State :=
  let st1 := if str_eqb key (u "Enter") then saveEdit i st else st in
  if str_eqb key (u "Escape") then cancelEdit st1 else st1.

(** [!todos.some((t) => t.completed)], the [disabled] attribute of the
    "Clear completed" button. *)
Definition clearDisabled (st : State) : bool :=
  negb (existsb Todo.completed (todos st)).

(** What the user can do with the rendered page.  A task row offers its own
    task to [toggleTodo], [startEdit], [saveEdit] and [removeTodo]; the
    events carry the id or the task, whichever the handler takes. *)
Inductive Event :=
| Submit (uuid : js_string) (now : number)
| ChangeText (value : js_string)
| ClickFilter (f : Filter)
| ClickClearCompleted
| ChangeCheckbox (i : js_string)
| StartEdit (todo : Todo)
| ChangeEditingText (value : js_string)
| KeyDown (key i : js_string)
| ClickSave (i : js_string)
| ClickCancel
| ClickDelete (i : js_string).

(** The handler the markup binds to each event.  A disabled button does not
    deliver its click. *)
Definition handle (ev : Event) (st : State) : State :=
  match ev with
  | Submit uuid now => addTodo uuid now st
  | ChangeText value => setText value st
  | ClickFilter f => setFilter f st
  | ClickClearCompleted => if clearDisabled st then st else clearCompleted st
  | ChangeCheckbox i => toggleTodo i st
  | StartEdit todo => startEdit todo st
  | ChangeEditingText value => setEditingText value st
  | KeyDown key i => onKeyDown key i st
  | ClickSave i => saveEdit i st
  | ClickCancel => cancelEdit st
  | ClickDelete i => removeTodo i st
  end.

(** Whether the handler calls [setTodos].  Every updater passed to
    [setTodos] builds a new array, so this is when the dependency [todos] of
    the saving effect changes. *)
Definition setsTodos (ev : Event) (st : State) : bool :=
  match ev with
  | Submit _ _ => truthy_string (trim (text st))
  | ClickClearCompleted => negb (clearDisabled st)
  | ChangeCheckbox _ | ClickSave _ | ClickDelete _ => true
  | KeyDown key _ => str_eqb key (u "Enter")
  | ChangeText _ | ClickFilter _ | StartEdit _ | ChangeEditingText _ | ClickCancel => false
  end.

(** One event: the handler, then the render, then
    [useEffect(() => { saveTodos(todos) }, [todos])]. *)
Definition step (ev : Event) (st : State) : Eff State :=
  let st' := handle ev st in
  if setsTodos ev st then saveTodos (todos st') >> ret st' else ret st'.

Fixpoint run (evs : list Event) (st : State) : Eff State :=
  match evs with
  | [] => ret st
  | ev :: evs' => let! st' := step ev st in run evs' st'
  end.

(** The states the handlers alone lead to. *)
Definition play (evs : list Event) (st : State) : State :=
  fold_left (fun s ev => handle ev s) evs st.

(** The state of the first render, from the collection that was loaded. *)
Definition init (loaded : list Todo) : State :=
  {| todos := loaded; text := []; filter := all; editingId := None; editingText := [] |}.

(** *** What is rendered *)

Definition Filter_eqb (f g : Filter) : bool :=
  match f, g with
  | all, all | active, active | completed, completed => true
  | _, _ => false
  end.

(** [editingId === todo.id]. *)
Definition isEditing (st : State) (todo : Todo) : bool :=
  match editingId st with
  | Some e => str_eqb e (Todo.id todo)
  | None => false
  end.

(** One [<li>] of the list: its React key, the checkbox, and either the edit
    box with the working text or the text of the task. *)
Record Row := mkRow {
  key : js_string;
  checked : bool;
  ariaLabel : js_string;
  editing : bool;
  content : js_string;
  lineThrough : bool
}.

Definition row (st : State) (todo : Todo) : Row :=
  {| key := Todo.id todo;
     checked := Todo.completed todo;
     ariaLabel := u "Mark " ++ Todo.text todo ++ u " as "
                  ++ (if Todo.completed todo then u "active" else u "completed");
     editing := isEditing st todo;
     content := if isEditing st todo then editingText st else Todo.text todo;
     lineThrough := negb (isEditing st todo) && Todo.completed todo |}.

(** The data in the markup [Home] returns. *)
Record View := mkView {
  inputValue : js_string;
  pressed : Filter -> bool;
  itemsLeft : nat;
  clearIsDisabled : bool;
  emptyMessage : bool;
  rows : list Row
}.

Definition render (st : State) : View :=
  {| inputValue := text st;
     pressed := fun f => Filter_eqb (filter st) f;
     itemsLeft := length (List.filter (fun t => negb (Todo.completed t)) (todos st));
     clearIsDisabled := clearDisabled st;
     emptyMessage := Nat.eqb (length (visible st)) 0;
     rows := List.map (row st) (visible st) |}.

End Home.

(** ** Notions the statements use *)

(** The text stored under the key, when the storage can be read. *)
Definition stored (w : World) : option js_string :=
  if accessible (storage w) then items (storage w) !! STORAGE_KEY else None.

(** A finite number in the normal form of [mk_finite]: an integer, or a
    fraction whose last digit is not 0.  [mk_finite] and [of_Z] build no
    other finite number. *)
Definition normal_finite (x : number) : bool :=
  match x with
  | Finite m e => (e =? 0)%Z || ((e <? 0)%Z && negb (m mod 10 =? 0)%Z)
  | _ => false
  end.

(** The ids of a collection, in order. *)
Definition ids (ts : list Todo) : list js_string := List.map Todo.id ts.

(** A text as [addTodo] and [saveEdit] store it: not empty, and trimmed. *)
Definition trimmed_text (t : Todo) : Prop :=
  Todo.text t <> [] /\ trim (Todo.text t) = Todo.text t.

(** What identifies a task for good: its id and its creation time. *)
Definition stamp (t : Todo) : js_string * number := (Todo.id t, Todo.createdAt t).

(** The identifiers and times the [Submit] events of a run bring, oldest
    first. *)
Fixpoint submitted (evs : list Home.Event) : list (js_string * number) :=
  match evs with
  | [] => []
  | Home.Submit uuid now :: evs' => (uuid, now) :: submitted evs'
  | _ :: evs' => submitted evs'
  end.

(** The value of a digit string read from its least significant digit. *)
Definition digits_value_rev (ds : list code_unit) : N :=
  fold_right (fun d a => a * 10 + (d - 48)) 0 ds.

(** What may follow a digit string without being read as part of it. *)
Definition no_digit_ahead (s : js_string) : Prop :=
  match s with
  | [] => True
  | c :: _ => is_digit c = false
  end.

(** What may follow a number literal without being read as part of it. *)
Definition number_end (s : js_string) : Prop :=
  match s with
  | [] => True
  | c :: _ => is_digit c = false /\ c <> 46 /\ c <> 101 /\ c <> 69
  end.

(** * Properties of the handlers *)

Section ListFacts.

Context {A : Type}.
Implicit Types (f g : A -> bool) (l : list A).

(** [Array.prototype.filter] with a boolean callback is stdpp's [filter]
    for the predicate "the callback returns true". *)
Lemma filter_bool f l : List.filter f l = filter (fun x => f x = true) l.
Proof.
  induction l as [|x l IH]; [done|].
  cbn [List.filter]. rewrite filter_cons.
  destruct (f x) eqn:E; case_decide; congruence.
Qed.

Lemma filter_sublist f l : List.filter f l `sublist_of` l.
Proof. rewrite filter_bool. apply sublist_filter. Qed.

Lemma filter_elem_of f l x : x ∈ List.filter f l <-> x ∈ l /\ f x = true.
Proof. rewrite filter_bool, list_elem_of_filter. tauto. Qed.

Lemma filter_all f l : (forall x, x ∈ l -> f x = true) -> List.filter f l = l.
Proof.
  induction l as [|x l IH]; intros H; [done|].
  cbn [List.filter]. rewrite (H x) by left.
  f_equal. apply IH. intros y Hy. apply H. by right.
Qed.

Lemma filter_twice f l : List.filter f (List.filter f l) = List.filter f l.
Proof. apply filter_all. intros x Hx. by apply filter_elem_of in Hx as [_ ?]. Qed.

Lemma filter_split f l :
  List.filter f l ++ List.filter (fun x => negb (f x)) l ≡ₚ l.
Proof.
  induction l as [|x l IH]; [done|].
  cbn [List.filter]. destruct (f x); cbn [negb app].
  - by rewrite IH.
  - by rewrite <- Permutation_middle, IH.
Qed.

Lemma map_id_on (h : A -> A) l : (forall x, x ∈ l -> h x = x) -> List.map h l = l.
Proof.
  induction l as [|x l IH]; intros H; [done|].
  cbn [List.map]. rewrite (H x) by left.
  f_equal. apply IH. intros y Hy. apply H. by right.
Qed.

Lemma map_lookup (h : A -> A) l n : List.map h l !! n = h <$> l !! n.
Proof. apply (list_lookup_fmap h l n). Qed.

(** The positions of a subsequence grow with those of the whole list. *)
Lemma sublist_order l k i j a b :
  l `sublist_of` k -> (i < j)%nat -> l !! i = Some a -> l !! j = Some b ->
  exists i' j', (i' < j')%nat /\ k !! i' = Some a /\ k !! j' = Some b.
Proof.
  intros Hsub. revert i j. induction Hsub as [|x l k Hsub IH|x l k Hsub IH];
    intros i j Hij Hi Hj.
  - done.
  - destruct i as [|i], j as [|j]; try lia.
    + cbn in Hi, Hj. injection Hi as ->.
      assert (b ∈ k) as Hb.
      { eapply elem_of_sublist; [|exact Hsub]. by eapply list_elem_of_lookup_2. }
      apply list_elem_of_lookup in Hb as [j' Hj'].
      exists 0%nat, (S j'). repeat split; try done; lia.
    + cbn in Hi, Hj. destruct (IH i j) as (i' & j' & ? & ? & ?); [lia|done|done|].
      exists (S i'), (S j'). repeat split; try done; lia.
  - destruct (IH i j Hij Hi Hj) as (i' & j' & ? & ? & ?).
    exists (S i'), (S j'). repeat split; try done; lia.
Qed.

End ListFacts.

Lemma str_eqb_neq (s t : js_string) : str_eqb s t = false <-> s <> t.
Proof. unfold str_eqb. by rewrite bool_decide_eq_false. Qed.

Lemma truthy_string_nonempty (s : js_string) : truthy_string s = true <-> s <> [].
Proof. by destruct s. Qed.

(** ** [trim] *)

Example trim_examples :
  trim (u "  Buy milk ") = u "Buy milk"
  /\ trim ([9; 10] ++ u "a  b" ++ [13; 160; 8232; 65279]) = u "a  b"
  /\ trim (u "   ") = []
  /\ trim [] = []
  /\ trim (u "x") = u "x".
Proof. by vm_compute. Qed.

Lemma trimStart_head (s : js_string) :
  match trimStart s with
  | [] => True
  | c :: _ => is_white_space c = false
  end.
Proof.
  induction s as [|c s IH]; [done|]. cbn [trimStart].
  by destruct (is_white_space c) eqn:E.
Qed.

Lemma trimStart_fixed (s : js_string) :
  match s with
  | [] => True
  | c :: _ => is_white_space c = false
  end ->
  trimStart s = s.
Proof. destruct s as [|c s]; [done|]. intros H. cbn [trimStart]. by rewrite H. Qed.

Lemma trimStart_snoc (s : js_string) (c : code_unit) :
  is_white_space c = false -> trimStart (s ++ [c]) = trimStart s ++ [c].
Proof.
  intros H. induction s as [|d s IH]; cbn [app trimStart].
  - by rewrite H.
  - by destruct (is_white_space d).
Qed.

(** A trimmed string neither starts nor ends with white space, and trimming
    it again changes nothing. *)
Lemma trim_ends (s : js_string) :
  match trim s with
  | [] => True
  | c :: _ => is_white_space c = false
  end
  /\ match rev (trim s) with
     | [] => True
     | c :: _ => is_white_space c = false
     end
  /\ trim (trim s) = trim s.
Proof.
  unfold trim, trimEnd.
  pose proof (trimStart_head s) as Hhead.
  pose proof (trimStart_head (rev (trimStart s))) as Hlast.
  assert (match rev (trimStart (rev (trimStart s))) with
          | [] => True
          | c :: _ => is_white_space c = false
          end) as Hfirst.
  { destruct (trimStart s) as [|c t]; [done|].
    cbn [rev]. rewrite trimStart_snoc, rev_app_distr by done. done. }
  split; [done|]. rewrite rev_involutive. split; [done|].
  rewrite (trimStart_fixed _ Hfirst), rev_involutive.
  by rewrite (trimStart_fixed _ Hlast).
Qed.

(** ** Adding a task *)

(** C3. When the trimmed input is not empty, [addTodo] makes the collection
    one task longer: the new task comes first, carries the trimmed input as
    its text and is not completed, and the old tasks follow unchanged.  When
    the trimmed input is empty (as for the empty string or for three spaces),
    [addTodo] changes nothing. *)
Theorem addTodo_spec (uuid : js_string) (now : number) (st : Home.State) :
  (trim (Home.text st) <> [] ->
   length (Home.todos (Home.addTodo uuid now st)) = S (length (Home.todos st))
   /\ exists t,
       Home.todos (Home.addTodo uuid now st) = t :: Home.todos st
       /\ Todo.text t = trim (Home.text st)
       /\ Todo.completed t = false)
  /\ (trim (Home.text st) = [] -> Home.addTodo uuid now st = st).
Proof.
  unfold Home.addTodo. split; intros H.
  - apply truthy_string_nonempty in H. rewrite H. cbn. split; [done|].
    eexists. by repeat split.
  - by rewrite H.
Qed.

Lemma addTodo_spec_witness :
  (let st := Home.mkState [] (u " Buy milk  ") Home.all None [] in
   exists t, Home.todos (Home.addTodo (u "id-1") (of_Z 1757954306752) st) = [t]
             /\ Todo.text t = u "Buy milk" /\ Todo.completed t = false)
  /\ (let st := Home.mkState [] (u "   ") Home.all None [] in
      Home.addTodo (u "id-1") (of_Z 1757954306752) st = st)
  /\ (let st := Home.mkState [] [] Home.all None [] in
      Home.addTodo (u "id-1") (of_Z 1757954306752) st = st).
Proof.
  split; [|split].
  - destruct (addTodo_spec (u "id-1") (of_Z 1757954306752)
                (Home.mkState [] (u " Buy milk  ") Home.all None [])) as [H _].
    destruct H as [_ [t H]]; [by vm_compute|]. exists t. exact H.
  - apply (addTodo_spec (u "id-1") (of_Z 1757954306752)
             (Home.mkState [] (u "   ") Home.all None [])). by vm_compute.
  - apply (addTodo_spec (u "id-1") (of_Z 1757954306752)
             (Home.mkState [] [] Home.all None [])). by vm_compute.
Defined.

(** ** Toggling *)

Lemma with_completed_twice (t : Todo) :
  Todo.with_completed (Todo.with_completed t (negb (Todo.completed t)))
    (negb (negb (Todo.completed t))) = t.
Proof. destruct t as [i x c a]. cbn. by rewrite negb_involutive. Qed.

(** C4. [toggleTodo i] keeps the length and the order of the collection: at
    every position the task keeps its id, text and creation time, its
    completed flag is negated when its id is [i] and kept otherwise; and
    toggling twice gives back the state one started from. *)
Theorem toggleTodo_spec (i : js_string) (st : Home.State) :
  length (Home.todos (Home.toggleTodo i st)) = length (Home.todos st)
  /\ (forall n t, Home.todos st !! n = Some t ->
        exists t', Home.todos (Home.toggleTodo i st) !! n = Some t'
          /\ Todo.id t' = Todo.id t /\ Todo.text t' = Todo.text t
          /\ Todo.createdAt t' = Todo.createdAt t
          /\ Todo.completed t' =
               (if decide (Todo.id t = i) then negb (Todo.completed t)
                else Todo.completed t)
          /\ (Todo.id t <> i -> t' = t))
  /\ Home.toggleTodo i (Home.toggleTodo i st) = st.
Proof.
  destruct st as [ts x f ei et]. cbn. split; [apply length_map|]. split.
  - intros n t Hn. rewrite map_lookup, Hn. cbn. eexists. split; [done|].
    unfold str_eqb. destruct (decide (Todo.id t = i)) as [Heq|Hne].
    + rewrite bool_decide_eq_true_2 by done. cbn. by repeat split.
    + rewrite bool_decide_eq_false_2 by done. by repeat split.
  - unfold Home.toggleTodo, Home.setTodos. cbn. f_equal.
    rewrite List.map_map. apply map_id_on. intros t _.
    destruct (str_eqb (Todo.id t) i) eqn:E; cbn.
    + rewrite E. apply with_completed_twice.
    + by rewrite E.
Qed.

Lemma toggleTodo_spec_witness :
  let a := Todo.mk (u "a") (u "Walk dog") false (of_Z 2) in
  let b := Todo.mk (u "b") (u "Buy milk") false (of_Z 1) in
  let st := Home.mkState [a; b] [] Home.all None [] in
  exists t', Home.todos (Home.toggleTodo (u "b") st) !! 1%nat = Some t'
             /\ Todo.completed t' = true.
Proof.
  intros a b st.
  destruct (toggleTodo_spec (u "b") st) as (_ & H & _).
  destruct (H 1%nat b eq_refl) as (t' & Ht' & _ & _ & _ & Hc & _).
  exists t'. split; [exact Ht'|]. rewrite Hc. by vm_compute.
Defined.

(** ** Unknown identifiers *)

(** C5. When no task of the collection has id [i], toggling [i], removing
    [i] and committing an edit of [i] (whatever the edited text) each leave
    the collection as it is. *)
Theorem unknown_id_noop (i : js_string) (st : Home.State) :
  (forall t, t ∈ Home.todos st -> Todo.id t <> i) ->
  Home.todos (Home.toggleTodo i st) = Home.todos st
  /\ Home.todos (Home.removeTodo i st) = Home.todos st
  /\ Home.todos (Home.saveEdit i st) = Home.todos st.
Proof.
  intros Hfresh.
  assert (forall h : Todo -> Todo,
            List.map (fun t => if str_eqb (Todo.id t) i then h t else t) (Home.todos st)
            = Home.todos st) as Hmap.
  { intros h. apply map_id_on. intros t Ht.
    apply Hfresh, str_eqb_neq in Ht. by rewrite Ht. }
  assert (List.filter (fun t => negb (str_eqb (Todo.id t) i)) (Home.todos st)
          = Home.todos st) as Hfilter.
  { apply filter_all. intros t Ht. apply Hfresh, str_eqb_neq in Ht. by rewrite Ht. }
  split; [|split].
  - cbn. apply Hmap.
  - cbn. apply Hfilter.
  - unfold Home.saveEdit. destruct (negb (truthy_string (trim (Home.editingText st)))); cbn.
    + apply Hfilter.
    + apply Hmap.
Qed.

Lemma unknown_id_noop_witness :
  let a := Todo.mk (u "a") (u "Walk dog") false (of_Z 2) in
  let b := Todo.mk (u "b") (u "Buy milk") true (of_Z 1) in
  let st := Home.mkState [a; b] [] Home.all (Some (u "a")) (u "x") in
  Home.todos (Home.toggleTodo (u "c") st) = [a; b]
  /\ Home.todos (Home.removeTodo (u "c") st) = [a; b]
  /\ Home.todos (Home.saveEdit (u "c") st) = [a; b].
Proof.
  intros a b st. apply (unknown_id_noop (u "c") st).
  intros t Ht. cbn in Ht.
  apply elem_of_cons in Ht as [->|Ht]; [by vm_compute|].
  apply elem_of_cons in Ht as [->|Ht]; [by vm_compute|].
  by apply elem_of_nil in Ht.
Defined.

(** ** Committing an edit *)

(** C6. When the trimmed edit text is empty, [saveEdit i] leaves the
    collection [removeTodo i] leaves: no task with id [i] remains, the tasks
    with another id are kept in their order, and a collection that had a task
    with id [i] gets shorter; the edit state is cleared. *)
Theorem saveEdit_empty_removes (i : js_string) (st : Home.State) :
  (exists t, t ∈ Home.todos st /\ Todo.id t = i) ->
  trim (Home.editingText st) = [] ->
  Home.todos (Home.saveEdit i st) = Home.todos (Home.removeTodo i st)
  /\ (forall t, t ∈ Home.todos (Home.saveEdit i st)
                <-> t ∈ Home.todos st /\ Todo.id t <> i)
  /\ Home.todos (Home.saveEdit i st) `sublist_of` Home.todos st
  /\ (length (Home.todos (Home.saveEdit i st)) < length (Home.todos st))%nat
  /\ Home.editingId (Home.saveEdit i st) = None
  /\ Home.editingText (Home.saveEdit i st) = [].
Proof.
  intros (t0 & Hin & Hid) Hempty. unfold Home.saveEdit. rewrite Hempty. cbn.
  split; [done|]. split; [|split; [|split; [|done]]].
  - intros t. rewrite filter_elem_of, negb_true_iff, str_eqb_neq. tauto.
  - apply filter_sublist.
  - rewrite filter_bool. apply (length_filter_lt _ _ t0); [done|].
    subst i. unfold str_eqb. by rewrite bool_decide_eq_true_2.
Qed.

Lemma saveEdit_empty_removes_witness :
  let a := Todo.mk (u "a") (u "Walk dog") false (of_Z 2) in
  let b := Todo.mk (u "b") (u "Buy milk") true (of_Z 1) in
  let st := Home.mkState [a; b] [] Home.all (Some (u "a")) (u "  ") in
  Home.todos (Home.saveEdit (u "a") st) = Home.todos (Home.removeTodo (u "a") st)
  /\ Home.editingId (Home.saveEdit (u "a") st) = None.
Proof.
  intros a b st.
  destruct (saveEdit_empty_removes (u "a") st) as (H1 & _ & _ & _ & H2 & _).
  - exists a. split; [by left|by vm_compute].
  - by vm_compute.
  - by split.
Defined.

(** C7. When the trimmed edit text is not empty, [saveEdit i] keeps the
    length and the order of the collection: at every position the task keeps
    its id, completed flag and creation time, its text becomes the trimmed
    edit text when its id is [i], and a task with another id is unchanged.
    The edit state is cleared. *)
Theorem saveEdit_replaces_text (i : js_string) (st : Home.State) :
  (exists t, t ∈ Home.todos st /\ Todo.id t = i) ->
  trim (Home.editingText st) <> [] ->
  length (Home.todos (Home.saveEdit i st)) = length (Home.todos st)
  /\ (forall n t, Home.todos st !! n = Some t ->
        exists t', Home.todos (Home.saveEdit i st) !! n = Some t'
          /\ Todo.id t' = Todo.id t /\ Todo.completed t' = Todo.completed t
          /\ Todo.createdAt t' = Todo.createdAt t
          /\ Todo.text t' =
               (if decide (Todo.id t = i) then trim (Home.editingText st)
                else Todo.text t)
          /\ (Todo.id t <> i -> t' = t))
  /\ (exists n t', Home.todos (Home.saveEdit i st) !! n = Some t'
        /\ Todo.id t' = i /\ Todo.text t' = trim (Home.editingText st))
  /\ Home.editingId (Home.saveEdit i st) = None
  /\ Home.editingText (Home.saveEdit i st) = [].
Proof.
  intros (t0 & Hin & Hid) Hne. unfold Home.saveEdit.
  apply truthy_string_nonempty in Hne. rewrite Hne. cbn.
  split; [apply length_map|].
  assert (forall n t, Home.todos st !! n = Some t ->
    exists t', List.map (fun t => if str_eqb (Todo.id t) i
                                   then Todo.with_text t (trim (Home.editingText st))
                                   else t) (Home.todos st) !! n = Some t'
      /\ Todo.id t' = Todo.id t /\ Todo.completed t' = Todo.completed t
      /\ Todo.createdAt t' = Todo.createdAt t
      /\ Todo.text t' = (if decide (Todo.id t = i) then trim (Home.editingText st)
                         else Todo.text t)
      /\ (Todo.id t <> i -> t' = t)) as Hpos.
  { intros n t Hn. rewrite map_lookup, Hn. cbn. eexists. split; [done|].
    unfold str_eqb. destruct (decide (Todo.id t = i)) as [Heq|Hneq].
    - rewrite bool_decide_eq_true_2 by done. cbn. by repeat split.
    - rewrite bool_decide_eq_false_2 by done. by repeat split. }
  split; [exact Hpos|]. split; [|done].
  apply list_elem_of_lookup in Hin as [n Hn].
  destruct (Hpos n t0 Hn) as (t' & Ht' & Hid' & _ & _ & Htext & _).
  exists n, t'. split; [done|]. split; [congruence|].
  rewrite Htext. by rewrite decide_True.
Qed.

Lemma saveEdit_replaces_text_witness :
  let a := Todo.mk (u "a") (u "Walk dog") false (of_Z 2) in
  let b := Todo.mk (u "b") (u "Buy milk") true (of_Z 1) in
  let st := Home.mkState [a; b] [] Home.all (Some (u "b")) (u " Buy oat milk ") in
  length (Home.todos (Home.saveEdit (u "b") st)) = 2%nat
  /\ Home.editingId (Home.saveEdit (u "b") st) = None.
Proof.
  intros a b st.
  destruct (saveEdit_replaces_text (u "b") st) as (H1 & _ & _ & H2 & _).
  - exists b. split; [right; by left|by vm_compute].
  - by vm_compute.
  - by split.
Defined.

(** ** Clearing the completed tasks *)

(** C8. [clearCompleted] keeps exactly the tasks that are not completed, in
    their order: the result is a subsequence of the collection, a task is in
    it if and only if it is in the collection and not completed, the result
    together with the completed tasks is the collection up to order, and
    clearing a second time changes nothing. *)
Theorem clearCompleted_spec (st : Home.State) :
  Home.todos (Home.clearCompleted st) `sublist_of` Home.todos st
  /\ (forall t, t ∈ Home.todos (Home.clearCompleted st)
                <-> t ∈ Home.todos st /\ Todo.completed t = false)
  /\ Home.todos (Home.clearCompleted st) ++ List.filter Todo.completed (Home.todos st)
       ≡ₚ Home.todos st
  /\ Home.clearCompleted (Home.clearCompleted st) = Home.clearCompleted st.
Proof.
  destruct st as [ts x f ei et]. unfold Home.clearCompleted, Home.setTodos. cbn.
  split; [apply filter_sublist|]. split; [|split].
  - intros t. by rewrite filter_elem_of, negb_true_iff.
  - rewrite (filter_ext Todo.completed (fun t => negb (negb (Todo.completed t))))
      by (intros t; by rewrite negb_involutive).
    apply (filter_split (fun t => negb (Todo.completed t))).
  - f_equal. apply filter_twice.
Qed.

(** ** The filtered view *)

(** C9. Choosing a filter leaves the collection as it is; under [all] the
    view is the collection; the views under [active] and [completed] have no
    task in common and together hold the tasks of the collection, each as
    often as the collection does. *)
Theorem visible_partition (st : Home.State) :
  (forall f, Home.todos (Home.setFilter f st) = Home.todos st)
  /\ Home.visible (Home.setFilter Home.all st) = Home.todos st
  /\ Home.visible (Home.setFilter Home.active st)
       ++ Home.visible (Home.setFilter Home.completed st) ≡ₚ Home.todos st
  /\ Home.visible (Home.setFilter Home.active st)
       ## Home.visible (Home.setFilter Home.completed st).
Proof.
  unfold Home.visible. cbn. split; [done|]. split; [|split].
  - by apply filter_all.
  - rewrite (filter_ext Todo.completed (fun t => negb (negb (Todo.completed t))))
      by (intros t; by rewrite negb_involutive).
    apply (filter_split (fun t => negb (Todo.completed t))).
  - intros t [_ Ha]%filter_elem_of [_ Hc]%filter_elem_of.
    rewrite Hc in Ha. discriminate.
Qed.

(** C10. Under each of the three filters the view is a subsequence of the
    collection: every task of the view is a task of the collection, and two
    tasks of the view stand in the collection in the same order. *)
Theorem visible_subsequence (st : Home.State) :
  Home.visible st `sublist_of` Home.todos st
  /\ Home.visible st ⊆ Home.todos st
  /\ (forall i j a b, (i < j)%nat ->
        Home.visible st !! i = Some a -> Home.visible st !! j = Some b ->
        exists i' j', (i' < j')%nat
          /\ Home.todos st !! i' = Some a /\ Home.todos st !! j' = Some b).
Proof.
  assert (Home.visible st `sublist_of` Home.todos st) as Hsub
    by apply filter_sublist.
  split; [done|]. split; [by apply sublist_subseteq|].
  intros i j a b. by apply sublist_order.
Qed.

Lemma visible_subsequence_witness :
  let a := Todo.mk (u "a") (u "Walk dog") false (of_Z 3) in
  let b := Todo.mk (u "b") (u "Buy milk") true (of_Z 2) in
  let c := Todo.mk (u "c") (u "Call home") false (of_Z 1) in
  let st := Home.mkState [a; b; c] [] Home.active None [] in
  exists i' j', (i' < j')%nat
    /\ Home.todos st !! i' = Some a /\ Home.todos st !! j' = Some c.
Proof.
  intros a b c st.
  destruct (visible_subsequence st) as (_ & _ & H).
  apply (H 0%nat 1%nat a c); [lia| |]; by vm_compute.
Defined.


(** ** A session

    Starting from the empty collection: add "Buy milk", add "Walk dog",
    complete "Buy milk", look at the active tasks, clear the completed
    ones. *)
Example session :
  let st0 := Home.mkState [] [] Home.all None [] in
  let st1 := Home.addTodo (u "id-1") (of_Z 1000) (Home.setText (u "Buy milk") st0) in
  let st2 := Home.addTodo (u "id-2") (of_Z 2000) (Home.setText (u "Walk dog") st1) in
  let st3 := Home.toggleTodo (u "id-1") st2 in
  let st4 := Home.clearCompleted st3 in
  List.map (fun t => (Todo.text t, Todo.completed t)) (Home.todos st2)
    = [(u "Walk dog", false); (u "Buy milk", false)]
  /\ List.map Todo.text (Home.visible (Home.setFilter Home.active st3)) = [u "Walk dog"]
  /\ List.map Todo.text (Home.visible (Home.setFilter Home.completed st3)) = [u "Buy milk"]
  /\ List.map Todo.text (Home.todos st4) = [u "Walk dog"].
Proof. by vm_compute. Qed.

(** * Properties of the serialization *)

Example Number_toString_examples :
  Number_toString (of_Z 1757954306752) = u "1757954306752"
  /\ Number_toString (of_Z (-1000)) = u "-1000"
  /\ Number_toString (of_Z 0) = u "0"
  /\ Number_toString (mk_finite 15 (-1)) = u "1.5"
  /\ Number_toString (mk_finite (-12345) (-2)) = u "-123.45"
  /\ Number_toString (mk_finite 1 (-6)) = u "0.000001"
  /\ Number_toString (mk_finite 123 (-9)) = u "1.23e-7"
  /\ Number_toString (mk_finite 1 21) = u "1e+21"
  /\ Number_toString (mk_finite 123456 16) = u "1.23456e+21"
  /\ Number_toString (mk_finite 123456 15) = u "123456000000000000000".
Proof. by vm_compute. Qed.

Example stringify_example :
  JSON.stringify
    (todos_value [Todo.mk (u "a") (u "Buy " ++ [34] ++ u "milk" ++ [34; 10; 1; 55357])
                          false (of_Z 1757954306752);
                  Todo.mk (u "b") [] true NaN])
  = json_text "[{'id':'a','text':'Buy \'milk\'\n\u0001\ud83d','completed':false,'createdAt':1757954306752},{'id':'b','text':'','completed':true,'createdAt':null}]".
Proof. by vm_compute. Qed.

Example parse_examples :
  JSON.parse (json_text " [1.50, -0, 1e3, 12E-1, 'aA\/', true, null] ")
  = Some (JArray [JNumber (Finite 15 (-1)); JNumber (Finite 0 0);
                  JNumber (Finite 1000 0); JNumber (Finite 12 (-1));
                  JString (u "aA/"); JBool true; JNull])
  /\ JSON.parse (json_text "{'b':1,'2':2,'a':{},'b':[],'1':3}")
     = Some (JObject [(u "1", JNumber (of_Z 3)); (u "2", JNumber (of_Z 2));
                      (u "b", JArray []); (u "a", JObject [])])
  /\ JSON.parse (u "[1,]") = None
  /\ JSON.parse (u "01") = None
  /\ JSON.parse (u "1.") = None
  /\ JSON.parse (json_text "'a") = None
  /\ JSON.parse (json_text "{'a':1,}") = None
  /\ JSON.parse (u "[] []") = None
  /\ JSON.parse (u "nul") = None
  /\ JSON.parse [] = None.
Proof. by vm_compute. Qed.

(** ** Decimal digits *)

Lemma is_digit_spec (c : code_unit) : is_digit c = true <-> 48 <= c <= 57.
Proof. unfold is_digit. rewrite andb_true_iff, !N.leb_le. tauto. Qed.

Lemma digits_value_rev_eq (ds : list code_unit) :
  digits_value (rev ds) = digits_value_rev ds.
Proof.
  unfold digits_value, digits_value_rev.
  rewrite <- fold_left_rev_right, rev_involutive. done.
Qed.

Lemma digits_value_app (a b : js_string) :
  digits_value (a ++ b) = digits_value a * 10 ^ N.of_nat (length b) + digits_value b.
Proof.
  unfold digits_value. revert a. induction b as [|d b IH] using rev_ind; intros a.
  - rewrite app_nil_r. cbn. lia.
  - rewrite app_assoc, fold_left_app, (fold_left_app _ b [d]). cbn [fold_left].
    rewrite IH, length_app. cbn [length].
    replace (N.of_nat (length b + 1)) with (N.succ (N.of_nat (length b))) by lia.
    rewrite N.pow_succ_r'. lia.
Qed.

Lemma digit_code_sub (d : N) : 48 + d - 48 = d.
Proof. lia. Qed.

Lemma div_mod_10 (n : N) : n / 10 * 10 + n mod 10 = n /\ n mod 10 < 10.
Proof.
  split; [|by apply N.mod_lt].
  rewrite N.mul_comm. symmetry. apply N.Div0.div_mod.
Qed.

Lemma div10_lt_pow2 (n : N) (f : nat) :
  n < 2 ^ N.of_nat (S f) -> n / 10 < 2 ^ N.of_nat f.
Proof.
  intros H. replace (N.of_nat (S f)) with (N.succ (N.of_nat f)) in H by lia.
  rewrite N.pow_succ_r' in H.
  apply N.Div0.div_lt_upper_bound. lia.
Qed.

Lemma digits_rev_value (f : nat) (n : N) :
  n < 2 ^ N.of_nat f -> digits_value_rev (digits_rev f n) = n.
Proof.
  revert n. induction f as [|f IH]; intros n Hn.
  - cbn in Hn. cbn. lia.
  - cbn [digits_rev]. destruct (N.eqb_spec n 0) as [->|Hz]; [done|].
    cbn [digits_value_rev fold_right]. fold (digits_value_rev (digits_rev f (n / 10))).
    rewrite IH by by apply div10_lt_pow2.
    rewrite digit_code_sub. apply div_mod_10.
Qed.

Lemma digits_rev_digits (f : nat) (n : N) : Forall (fun c => is_digit c = true) (digits_rev f n).
Proof.
  revert n. induction f as [|f IH]; intros n; cbn [digits_rev]; [constructor|].
  destruct (n =? 0); constructor; [|apply IH].
  apply is_digit_spec. destruct (div_mod_10 n) as [_ H]. revert H.
  generalize (n mod 10). lia.
Qed.

(** The most significant digit of a positive number is not 0. *)
Lemma digits_rev_last (f : nat) (n : N) :
  n < 2 ^ N.of_nat f -> n <> 0 ->
  exists d ds, digits_rev f n = ds ++ [d] /\ d <> 48.
Proof.
  revert n. induction f as [|f IH]; intros n Hn Hz.
  - cbn in Hn. lia.
  - cbn [digits_rev]. destruct (N.eqb_spec n 0) as [->|_]; [done|].
    destruct (N.eq_dec (n / 10) 0) as [Hq|Hq].
    + exists (48 + n mod 10), []. split.
      * rewrite Hq. by destruct f.
      * destruct (div_mod_10 n) as [H _]. rewrite Hq in H. clear Hn IH Hq.
        revert H. generalize (n mod 10). lia.
    + destruct (IH (n / 10)) as (d & ds & Heq & Hd); [by apply div10_lt_pow2|done|].
      exists d, ((48 + n mod 10) :: ds). by rewrite Heq.
Qed.

Lemma size_bound (n : N) : n < 2 ^ N.of_nat (N.to_nat (N.size n)).
Proof. rewrite N2Nat.id. apply N.size_gt. Qed.

Lemma digits_value_digits (n : N) : digits_value (digits n) = n.
Proof.
  unfold digits. rewrite digits_value_rev_eq. apply digits_rev_value, size_bound.
Qed.

Lemma digits_are_digits (n : N) : Forall (fun c => is_digit c = true) (digits n).
Proof. unfold digits. apply Forall_rev, digits_rev_digits. Qed.

Lemma digits_head (n : N) :
  n <> 0 -> exists d ds, digits n = d :: ds /\ d <> 48 /\ is_digit d = true.
Proof.
  intros Hz. unfold digits.
  destruct (digits_rev_last _ n (size_bound n) Hz) as (d & ds & Heq & Hd).
  exists d, (rev ds). rewrite Heq, rev_app_distr. cbn. repeat split; [done|].
  pose proof (digits_rev_digits (N.to_nat (N.size n)) n) as Hall.
  rewrite Heq in Hall. apply Forall_app in Hall as [_ Hall]. by inversion Hall.
Qed.

Lemma read_digits_app (ds rest : js_string) :
  Forall (fun c => is_digit c = true) ds -> no_digit_ahead rest ->
  read_digits (ds ++ rest) = (ds, rest).
Proof.
  intros Hds Hrest. induction Hds as [|d ds Hd _ IH]; cbn [app read_digits].
  - destruct rest as [|c r]; [done|]. cbn [no_digit_ahead] in Hrest.
    cbn [read_digits]. by rewrite Hrest.
  - by rewrite Hd, IH.
Qed.

(** ** Numbers are printed and read back *)

Lemma drop_zeros_length (l : js_string) : (length (drop_zeros l) <= length l)%nat.
Proof.
  induction l as [|c r IH]; cbn [drop_zeros]; [done|].
  destruct (c =? 48); cbn [length]; lia.
Qed.

Lemma zeros_snoc (n : nat) : zeros (S n) = zeros n ++ [48].
Proof. unfold zeros. induction n as [|n IH]; [done|]. cbn in *. by rewrite <- IH. Qed.

Lemma zeros_length (n : nat) : length (zeros n) = n.
Proof. apply repeat_length. Qed.

Lemma zeros_digits (n : nat) : Forall (fun c => is_digit c = true) (zeros n).
Proof. induction n as [|n IH]; by constructor. Qed.

Lemma digits_value_zeros (n : nat) : digits_value (zeros n) = 0.
Proof.
  induction n as [|n IH]; [done|].
  rewrite zeros_snoc, digits_value_app, IH. done.
Qed.

Lemma digits_value_leading_zeros (n : nat) (ds : js_string) :
  digits_value (zeros n ++ ds) = digits_value ds.
Proof. rewrite digits_value_app, digits_value_zeros. lia. Qed.

Lemma drop_zeros_restore (l : js_string) :
  rev (drop_zeros l) ++ zeros (length l - length (drop_zeros l)) = rev l.
Proof.
  induction l as [|c r IH]; [done|]. cbn [drop_zeros].
  destruct (N.eqb_spec c 48) as [->|Hc].
  - pose proof (drop_zeros_length r). cbn [length rev].
    replace (S (length r) - length (drop_zeros r))%nat
      with (S (length r - length (drop_zeros r))) by lia.
    by rewrite zeros_snoc, app_assoc, IH.
  - rewrite Nat.sub_diag. cbn [zeros repeat]. by rewrite app_nil_r.
Qed.

(** The last digit of a positive number. *)
Lemma digits_last (n : N) :
  n <> 0 -> exists ds, rev (digits n) = (48 + n mod 10) :: ds.
Proof.
  intros Hn. unfold digits. rewrite rev_involutive.
  destruct n as [|p]; [done|].
  destruct (N.to_nat (N.size (N.pos p))) as [|f] eqn:Ef; [cbn in Ef; lia|].
  cbn [digits_rev]. destruct (N.eqb_spec (N.pos p) 0); [done|]. eauto.
Qed.

(** The significant digits of a positive number: its digits without the
    zeros at the end. *)
Lemma significand_spec (n : N) :
  n <> 0 ->
  let raw := digits n in
  let s := rev (drop_zeros (rev raw)) in
  (exists d ss, s = d :: ss /\ d <> 48 /\ is_digit d = true)
  /\ Forall (fun c => is_digit c = true) s
  /\ (length s <= length raw)%nat
  /\ raw = s ++ zeros (length raw - length s)
  /\ digits_value s * 10 ^ N.of_nat (length raw - length s) = n
  /\ (n mod 10 <> 0 -> s = raw).
Proof.
  intros Hn. cbv zeta.
  pose proof (digits_are_digits n) as Hall.
  pose proof (digits_value_digits n) as Hval.
  destruct (digits_head n Hn) as (d & ds & Heq & Hd & Hdig).
  destruct (digits_last n Hn) as (ds' & Hlast).
  remember (digits n) as raw eqn:Hraw. clear Hraw.
  pose proof (drop_zeros_length (rev raw)) as Hk.
  pose proof (drop_zeros_restore (rev raw)) as Hrestore.
  rewrite rev_involutive, length_rev in Hrestore. rewrite length_rev in Hk.
  rewrite <- (length_rev (drop_zeros (rev raw))) in Hk, Hrestore.
  remember (rev (drop_zeros (rev raw))) as s eqn:Hs.
  assert (Forall (fun c => is_digit c = true) s) as Hsd.
  { rewrite <- Hrestore in Hall. by apply Forall_app in Hall as [? _]. }
  repeat split; try done.
  - destruct s as [|d' ss].
    + exfalso. cbn [app length] in Hrestore. rewrite Heq in Hrestore.
      destruct (length (d :: ds) - 0)%nat; [done|]. cbn in Hrestore. congruence.
    + exists d', ss. rewrite Heq in Hrestore. injection Hrestore as -> _. done.
  - apply (f_equal digits_value) in Hrestore.
    rewrite digits_value_app, digits_value_zeros, zeros_length in Hrestore. lia.
  - intros Hmod. rewrite Hs, Hlast. cbn [drop_zeros].
    destruct (N.eqb_spec (48 + n mod 10) 48) as [E|_]; [lia|].
    by rewrite <- Hlast, rev_involutive.
Qed.

Lemma mk_finite_scaled (m e : Z) : (0 <= e)%Z -> mk_finite m e = Finite (m * 10 ^ e) 0.
Proof. intros He. unfold mk_finite. by rewrite (proj2 (Z.leb_le 0 e) He). Qed.

Lemma mk_finite_normal (m e : Z) : normal_finite (Finite m e) = true -> mk_finite m e = Finite m e.
Proof.
  cbn [normal_finite]. intros [He|[He Hm]%andb_true_iff]%orb_true_iff.
  - apply Z.eqb_eq in He as ->. rewrite mk_finite_scaled by done. f_equal. lia.
  - apply Z.ltb_lt in He. unfold mk_finite.
    rewrite (proj2 (Z.leb_gt 0 e)) by done.
    destruct (Z.to_nat (- e)) as [|f] eqn:Ef; [lia|].
    cbn [strip_zeros]. rewrite (proj2 (Z.ltb_lt e 0)) by done.
    apply negb_true_iff in Hm. by rewrite Hm.
Qed.

Lemma strip_zeros_normal (fuel : nat) (m e : Z) :
  Z.of_nat fuel = (- e)%Z ->
  normal_finite (let '(m', e') := strip_zeros fuel m e in Finite m' e') = true.
Proof.
  revert m e. induction fuel as [|f IH]; intros m e He.
  - cbn. replace e with 0%Z by lia. done.
  - cbn [strip_zeros]. destruct (Z.ltb_spec e 0); [|lia].
    destruct (Z.eqb_spec (m mod 10) 0) as [Hm|Hm]; cbn [andb].
    + apply IH. lia.
    + cbn [normal_finite]. rewrite (proj2 (Z.ltb_lt e 0)) by done.
      rewrite (proj2 (Z.eqb_neq (m mod 10) 0)) by done. apply orb_true_r.
Qed.

(** The numbers [JSON.parse] builds are in normal form. *)
Lemma mk_finite_is_normal (m e : Z) : normal_finite (mk_finite m e) = true.
Proof.
  unfold mk_finite. destruct (Z.leb_spec 0 e); [done|].
  apply strip_zeros_normal. lia.
Qed.

Lemma number_end_no_digit (s : js_string) : number_end s -> no_digit_ahead s.
Proof. destruct s; [done|]. by intros [? _]. Qed.

Lemma parse_frac_part_none (s : js_string) :
  match s with [] => True | c :: _ => c <> 46 end ->
  JSON.parse_frac_part s = Some ([], s).
Proof.
  destruct s as [|c r]; [done|]. intros H. cbn.
  by destruct (N.eqb_spec c 46).
Qed.

Lemma parse_exp_part_none (s : js_string) :
  number_end s -> JSON.parse_exp_part s = Some (0%Z, s).
Proof.
  destruct s as [|c r]; [done|]. intros (_ & _ & H1 & H2). cbn.
  by destruct (N.eqb_spec c 101), (N.eqb_spec c 69).
Qed.

Lemma parse_int_part_app (d : code_unit) (ds rest : js_string) :
  d <> 48 -> Forall (fun c => is_digit c = true) (d :: ds) -> no_digit_ahead rest ->
  JSON.parse_int_part (d :: ds ++ rest) = Some (d :: ds, rest).
Proof.
  intros Hd Hall Hrest.
  pose proof (read_digits_app (d :: ds) rest Hall Hrest) as Hread.
  apply Forall_cons in Hall as [Hdig _]. cbn [app] in Hread.
  cbn [JSON.parse_int_part]. destruct (N.eqb_spec d 48); [done|].
  by rewrite Hdig, Hread.
Qed.

Lemma parse_frac_part_app (ds rest : js_string) :
  ds <> [] -> Forall (fun c => is_digit c = true) ds -> no_digit_ahead rest ->
  JSON.parse_frac_part (46 :: ds ++ rest) = Some (ds, rest).
Proof.
  intros Hne Hall Hrest. cbn [JSON.parse_frac_part N.eqb Pos.eqb].
  rewrite read_digits_app by done. by destruct ds.
Qed.

(** The exponent part [Number::toString] prints: the letter e, a sign and
    the digits of a non-zero exponent. *)
Lemma parse_exp_part_app (ex : Z) (rest : js_string) :
  ex <> 0%Z -> no_digit_ahead rest ->
  JSON.parse_exp_part
    ([101] ++ (if (0 <=? ex)%Z then [43] else [45]) ++ digits (Z.abs_N ex) ++ rest)
  = Some (ex, rest).
Proof.
  intros Hex Hrest.
  assert (Z.abs_N ex <> 0) as Hn by lia.
  destruct (digits_head _ Hn) as (d & ds & Heq & _ & _).
  pose proof (read_digits_app _ rest (digits_are_digits (Z.abs_N ex)) Hrest) as Hread.
  pose proof (digits_value_digits (Z.abs_N ex)) as Hval.
  rewrite Heq in *.
  destruct (Z.leb_spec 0 ex); cbn [app JSON.parse_exp_part N.eqb Pos.eqb orb] in *;
    rewrite Hread, Hval, N2Z.inj_abs_N; do 2 f_equal; lia.
Qed.

(** The last of the four layouts: one digit, the others after a point when
    there are any, and the exponent. *)
Lemma parse_decimal_exponent (d : code_unit) (ss : js_string) (ex : Z) (rest : js_string) :
  d <> 48 -> Forall (fun c => is_digit c = true) (d :: ss) ->
  ex <> 0%Z -> number_end rest ->
  JSON.parse_decimal
    (match d :: ss with
     | d :: (_ :: _) as r => d :: 46 :: r
     | _ => d :: ss
     end ++ [101] ++ (if (0 <=? ex)%Z then [43] else [45]) ++ digits (Z.abs_N ex) ++ rest)
  = Some (digits_value (d :: ss), (ex - Z.of_nat (length ss))%Z, rest).
Proof.
  intros Hd Hall Hex Hrest. unfold JSON.parse_decimal.
  pose proof (parse_exp_part_app ex rest Hex (number_end_no_digit _ Hrest)) as Hexp.
  pose proof Hall as [Hdig Hss]%Forall_cons.
  destruct ss as [|c ss].
  - change ([d] ++ ?x) with (d :: [] ++ x).
    rewrite parse_int_part_app by done.
    rewrite parse_frac_part_none by done. rewrite Hexp. by rewrite app_nil_r.
  - change ((d :: 46 :: ?r) ++ ?x) with (d :: [] ++ 46 :: r ++ x).
    rewrite parse_int_part_app; [|done|by repeat constructor|done].
    rewrite parse_frac_part_app by done. by rewrite Hexp.
Qed.

(** What [Number::toString] prints for a positive number in normal form is
    read back as the same digits and exponent, or, for an integer printed
    with an exponent, as digits and a power of ten with the same product. *)
Lemma parse_decimal_unsigned (M : N) (e : Z) (rest : js_string) :
  M <> 0 -> e = 0%Z \/ (e < 0)%Z /\ M mod 10 <> 0 -> number_end rest ->
  (exists c r, unsigned_toString M e = c :: r /\ is_digit c = true)
  /\ exists M' E',
       JSON.parse_decimal (unsigned_toString M e ++ rest) = Some (M', E', rest)
       /\ (M' = M /\ E' = e
           \/ e = 0%Z /\ (0 <= E')%Z /\ Z.of_N M' * 10 ^ E' = Z.of_N M)%Z.
Proof.
  intros HM Hnorm Hrest.
  destruct (significand_spec M HM)
    as ((d & ss & Hs & Hd & Hdig) & Hsd & Hk & Hraw & Hval & Hfull).
  pose proof (digits_are_digits M) as Hall.
  pose proof (digits_value_digits M) as HvalM.
  destruct (digits_head M HM) as (d0 & ds0 & Heq0 & Hd0 & Hdig0).
  pose proof (number_end_no_digit _ Hrest) as Hrest'.
  unfold unsigned_toString.
  remember (digits M) as raw eqn:Eraw. clear Eraw.
  remember (rev (drop_zeros (rev raw))) as s eqn:Es. clear Es.
  assert (length raw <> 0)%nat as HL by (by rewrite Heq0).
  destruct ((Z.of_nat (length s) <=? Z.of_nat (length raw) + e)
            && (Z.of_nat (length raw) + e <=? 21))%Z eqn:B1.
  { (* the digits, with the zeros at the end *)
    apply andb_true_iff in B1 as [B1a%Z.leb_le B1b%Z.leb_le].
    assert (e = 0%Z) as ->.
    { destruct Hnorm as [->|[He Hm]]; [done|]. rewrite (Hfull Hm) in B1a. lia. }
    replace (Z.to_nat (Z.of_nat (length raw) + 0 - Z.of_nat (length s)))
      with (length raw - length s)%nat by lia.
    rewrite <- Hraw. split; [rewrite Heq0; eauto|].
    exists M, 0%Z. split; [|by left].
    unfold JSON.parse_decimal. rewrite Heq0. cbn [app].
    rewrite parse_int_part_app by (done || by rewrite <- Heq0).
    rewrite parse_frac_part_none by (destruct rest; [done|apply Hrest]).
    rewrite parse_exp_part_none by done.
    by rewrite app_nil_r, <- Heq0, HvalM. }
  destruct ((0 <? Z.of_nat (length raw) + e) && (Z.of_nat (length raw) + e <=? 21))%Z eqn:B2.
  { (* the decimal point inside the digits *)
    apply andb_true_iff in B2 as [B2a%Z.ltb_lt B2b%Z.leb_le].
    destruct Hnorm as [->|[He Hm]].
    { apply andb_false_iff in B1 as [B1%Z.leb_gt|B1%Z.leb_gt]; lia. }
    rewrite (Hfull Hm) in *. clear Hfull Hs.
    set (j := Z.to_nat (Z.of_nat (length raw) + e)).
    assert (0 < j < length raw)%nat as Hj by lia.
    assert (exists ds1, firstn j raw = d0 :: ds1) as [ds1 Hint].
    { rewrite Heq0. destruct j; [lia|]. cbn. eauto. }
    split; [rewrite Hint; eauto|].
    exists M, e. split; [|by left].
    unfold JSON.parse_decimal. rewrite <- !app_assoc. rewrite Hint. cbn [app].
    rewrite parse_int_part_app; [|done|rewrite <- Hint; by apply Forall_take|done].
    rewrite parse_frac_part_app;
      [|intros E; apply (f_equal length) in E; rewrite length_drop in E; cbn in E; lia
       |by apply Forall_drop|done].
    rewrite parse_exp_part_none by done.
    rewrite <- Hint, take_drop, HvalM, length_drop. do 3 f_equal. lia. }
  destruct ((-6 <? Z.of_nat (length raw) + e) && (Z.of_nat (length raw) + e <=? 0))%Z eqn:B3.
  { (* zeros between the point and the digits *)
    apply andb_true_iff in B3 as [B3a%Z.ltb_lt B3b%Z.leb_le].
    destruct Hnorm as [->|[He Hm]]; [lia|].
    rewrite (Hfull Hm) in *. clear Hfull Hs.
    split; [by exists 48, ([46] ++ zeros (Z.to_nat (- (Z.of_nat (length raw) + e))) ++ raw)|].
    exists M, e. split; [|by left].
    set (j := Z.to_nat (- (Z.of_nat (length raw) + e))).
    unfold JSON.parse_decimal. rewrite <- !app_assoc.
    change ([48; 46] ++ ?x) with (48 :: 46 :: x).
    cbn [JSON.parse_int_part N.eqb Pos.eqb]. rewrite app_assoc.
    rewrite parse_frac_part_app;
      [|intros E; apply (f_equal length) in E; rewrite length_app in E; cbn in E; lia
       |apply Forall_app; split; [apply zeros_digits|done]|done].
    rewrite parse_exp_part_none by done.
    change ([48] ++ zeros j ++ raw) with (zeros (S j) ++ raw).
    rewrite digits_value_leading_zeros, HvalM, length_app, zeros_length.
    do 3 f_equal. lia. }
  (* one digit and an exponent *)
  remember (Z.of_nat (length raw) + e - 1)%Z as ex eqn:Eex.
  assert (ex <> 0%Z) as Hex.
  { apply andb_false_iff in B2 as [B2%Z.ltb_ge|B2%Z.leb_gt];
      apply andb_false_iff in B3 as [B3%Z.ltb_ge|B3%Z.leb_gt]; lia. }
  rewrite Hs in *. split; [destruct ss; eauto|].
  exists (digits_value (d :: ss)), (ex - Z.of_nat (length ss))%Z. split.
  - rewrite <- !app_assoc. by apply parse_decimal_exponent.
  - cbn [length] in *. destruct Hnorm as [->|[He Hm]].
    + right. split; [done|]. split; [lia|].
      apply (f_equal Z.of_N) in Hval. rewrite N2Z.inj_mul, N2Z.inj_pow in Hval.
      rewrite <- Hval. do 2 f_equal. lia.
    + left. rewrite <- (Hfull Hm) in *. cbn [length] in *. split; [done|lia].
Qed.

Lemma normal_finite_abs (z e : Z) :
  z <> 0%Z -> normal_finite (Finite z e) = true ->
  e = 0%Z \/ (e < 0)%Z /\ Z.abs_N z mod 10 <> 0.
Proof.
  intros Hz. cbn [normal_finite].
  intros [He%Z.eqb_eq|[He%Z.ltb_lt Hm%negb_true_iff%Z.eqb_neq]%andb_true_iff]%orb_true_iff;
    [by left|right]. split; [done|]. intros Hmod. apply Hm.
  apply (f_equal Z.of_N) in Hmod. rewrite N2Z.inj_mod, N2Z.inj_abs_N in Hmod.
  change (Z.of_N 10) with 10%Z in Hmod. change (Z.of_N 0) with 0%Z in Hmod.
  revert Hmod. clear. Z.to_euclidean_division_equations. lia.
Qed.

Lemma number_text_head (z e : Z) :
  normal_finite (Finite z e) = true ->
  exists c r, Number_toString (Finite z e) = c :: r /\ (c = 45 \/ is_digit c = true).
Proof.
  intros Hn. cbn [Number_toString].
  destruct (Z.eqb_spec z 0) as [->|Hz]; [by exists 48, []; split; [|right]|].
  destruct (z <? 0)%Z; [eexists 45, _; split; [done|by left]|].
  destruct (parse_decimal_unsigned (Z.abs_N z) e [])
    as ((c & r & Heq & Hc) & _); [lia|by apply normal_finite_abs|done|].
  exists c, r. by split; [rewrite Heq|right].
Qed.

(** A finite number in normal form is read back from its text. *)
Lemma parse_number_finite (z e : Z) (rest : js_string) :
  normal_finite (Finite z e) = true -> number_end rest ->
  JSON.parse_number (Number_toString (Finite z e) ++ rest) = Some (Finite z e, rest).
Proof.
  intros Hn Hrest. cbn [Number_toString].
  destruct (Z.eqb_spec z 0) as [->|Hz].
  - assert (e = 0%Z) as ->.
    { cbn in Hn. apply orb_true_iff in Hn as [He%Z.eqb_eq|[_ ?]%andb_true_iff]; done. }
    unfold JSON.parse_number, JSON.parse_decimal.
    cbn [app N.eqb Pos.eqb JSON.parse_int_part].
    rewrite parse_frac_part_none by (destruct rest; [done|apply Hrest]).
    by rewrite parse_exp_part_none.
  - destruct (parse_decimal_unsigned (Z.abs_N z) e rest)
      as ((c & r & Heq & Hc) & M' & E' & Hparse & Hsame);
      [lia|by apply normal_finite_abs|done|].
    apply is_digit_spec in Hc. unfold JSON.parse_number.
    destruct (Z.ltb_spec z 0) as [Hneg|Hpos].
    + cbn [app N.eqb Pos.eqb]. rewrite Hparse. do 2 f_equal.
      destruct Hsame as [[-> ->]|(-> & HE & Hprod)].
      * rewrite N2Z.inj_abs_N. replace (- Z.abs z)%Z with z by lia.
        by apply mk_finite_normal.
      * rewrite mk_finite_scaled by done. f_equal.
        rewrite N2Z.inj_abs_N in Hprod. lia.
    + rewrite Heq in *. cbn [app] in *.
      destruct (N.eqb_spec c 45) as [->|_]; [lia|]. rewrite Hparse. do 2 f_equal.
      destruct Hsame as [[-> ->]|(-> & HE & Hprod)].
      * rewrite N2Z.inj_abs_N. replace (Z.abs z) with z by lia.
        by apply mk_finite_normal.
      * rewrite mk_finite_scaled by done. f_equal.
        rewrite N2Z.inj_abs_N in Hprod. lia.
Qed.

(** ** String literals are read back *)

Lemma hex_value_digit (d : N) : d < 16 -> JSON.hex_value (JSON.hex_digit d) = Some d.
Proof.
  intros Hd. unfold JSON.hex_value, JSON.hex_digit, is_digit.
  destruct (N.ltb_spec d 10).
  - replace ((48 <=? 48 + d) && (48 + d <=? 57)) with true
      by (symmetry; apply andb_true_iff; split; apply N.leb_le; lia).
    f_equal. lia.
  - replace ((48 <=? 87 + d) && (87 + d <=? 57)) with false
      by (symmetry; apply andb_false_iff; right; apply N.leb_gt; lia).
    replace ((97 <=? 87 + d) && (87 + d <=? 102)) with true
      by (symmetry; apply andb_true_iff; split; apply N.leb_le; lia).
    f_equal. lia.
Qed.

Lemma hex_digits_value (c : code_unit) :
  c < 65536 ->
  (c / 4096 mod 16) * 4096 + (c / 256 mod 16) * 256 + (c / 16 mod 16) * 16 + c mod 16 = c.
Proof. intros H. zify. Z.to_euclidean_division_equations. lia. Qed.

Lemma parse_chars_unicode_escape (c : code_unit) (tail : js_string) :
  c < 65536 ->
  JSON.parse_chars (JSON.unicode_escape c ++ tail) =
    match JSON.parse_chars tail with
    | Some (str, r) => Some (c :: str, r)
    | None => None
    end.
Proof.
  intros Hc. unfold JSON.unicode_escape. cbn [app JSON.parse_chars N.eqb Pos.eqb].
  rewrite !hex_value_digit by (by apply N.mod_lt).
  by rewrite hex_digits_value.
Qed.

Lemma parse_chars_literal (c : code_unit) (tail : js_string) :
  c <> 34 -> c <> 92 -> 32 <= c ->
  JSON.parse_chars (c :: tail) =
    match JSON.parse_chars tail with
    | Some (str, r) => Some (c :: str, r)
    | None => None
    end.
Proof.
  intros H1 H2 H3. cbn [JSON.parse_chars].
  destruct (N.eqb_spec c 34); [done|]. destruct (N.eqb_spec c 92); [done|].
  destruct (N.ltb_spec c 32); [lia|done].
Qed.

Lemma parse_chars_quote_unit (c : code_unit) (tail : js_string) :
  JSON.parse_chars (JSON.quote_unit c ++ tail) =
    match JSON.parse_chars tail with
    | Some (str, r) => Some (c :: str, r)
    | None => None
    end.
Proof.
  unfold JSON.quote_unit, JSON.is_leading_surrogate, JSON.is_trailing_surrogate.
  destruct (N.eqb_spec c 8) as [->|?]; [done|].
  destruct (N.eqb_spec c 9) as [->|?]; [done|].
  destruct (N.eqb_spec c 10) as [->|?]; [done|].
  destruct (N.eqb_spec c 12) as [->|?]; [done|].
  destruct (N.eqb_spec c 13) as [->|?]; [done|].
  destruct (N.eqb_spec c 34) as [->|?]; [done|].
  destruct (N.eqb_spec c 92) as [->|?]; [done|].
  destruct (N.ltb_spec c 32); cbn [orb].
  { apply parse_chars_unicode_escape. lia. }
  destruct (N.leb_spec 55296 c), (N.leb_spec c 56319); cbn [andb orb];
    try (apply parse_chars_unicode_escape; lia);
    destruct (N.leb_spec 56320 c), (N.leb_spec c 57343); cbn [andb orb];
    try (apply parse_chars_unicode_escape; lia);
    by apply parse_chars_literal.
Qed.

Lemma quote_units_cons (c : code_unit) (r : js_string) :
  JSON.quote_units (c :: r) =
    if JSON.is_leading_surrogate c then
      match r with
      | d :: r' =>
          if JSON.is_trailing_surrogate d then c :: d :: JSON.quote_units r'
          else JSON.unicode_escape c ++ JSON.quote_units r
      | [] => JSON.unicode_escape c
      end
    else JSON.quote_unit c ++ JSON.quote_units r.
Proof. by destruct r. Qed.

Lemma parse_chars_quote_units (s rest : js_string) :
  JSON.parse_chars (JSON.quote_units s ++ 34 :: rest) = Some (s, rest).
Proof.
  revert rest.
  enough ((forall rest, JSON.parse_chars (JSON.quote_units s ++ 34 :: rest) = Some (s, rest))
          /\ (forall c rest,
                JSON.parse_chars (JSON.quote_units (c :: s) ++ 34 :: rest)
                = Some (c :: s, rest))) as [H _] by exact H.
  induction s as [|d s [IH1 IH2]].
  - split; [done|]. intros c rest. rewrite quote_units_cons.
    destruct (JSON.is_leading_surrogate c) eqn:Hlead.
    + unfold JSON.is_leading_surrogate in Hlead.
      apply andb_true_iff in Hlead as [_ Hc%N.leb_le].
      rewrite parse_chars_unicode_escape by lia. done.
    + rewrite <- app_assoc, parse_chars_quote_unit. done.
  - split; [apply IH2|]. intros c rest. rewrite quote_units_cons.
    destruct (JSON.is_leading_surrogate c) eqn:Hlead.
    + unfold JSON.is_leading_surrogate in Hlead.
      apply andb_true_iff in Hlead as [Hc1%N.leb_le Hc2%N.leb_le].
      destruct (JSON.is_trailing_surrogate d) eqn:Htrail.
      * unfold JSON.is_trailing_surrogate in Htrail.
        apply andb_true_iff in Htrail as [Hd1%N.leb_le Hd2%N.leb_le].
        cbn [app]. rewrite parse_chars_literal by lia.
        rewrite parse_chars_literal by lia. by rewrite IH1.
      * rewrite <- app_assoc, parse_chars_unicode_escape by lia. by rewrite IH2.
    + rewrite <- app_assoc, parse_chars_quote_unit. by rewrite IH2.
Qed.

(** ** The reader consumes its input, and its fuel is enough *)

Lemma skip_ws_length (s : js_string) : (length (JSON.skip_ws s) <= length s)%nat.
Proof.
  induction s as [|c r IH]; cbn [JSON.skip_ws]; [done|].
  destruct (JSON.is_ws c); cbn [length]; lia.
Qed.

Lemma expect_length (c : code_unit) (s r : js_string) :
  JSON.expect c s = Some r -> length s = S (length r).
Proof.
  destruct s as [|x s]; [done|]. cbn. destruct (x =? c); [|done].
  by intros [= ->].
Qed.

Lemma expect_all_length (p s r : js_string) :
  JSON.expect_all p s = Some r -> (length r <= length s)%nat.
Proof.
  revert s. induction p as [|c p IH]; intros s; cbn [JSON.expect_all].
  - by intros [= ->].
  - destruct (JSON.expect c s) as [r'|] eqn:E; [|done].
    intros H%IH. apply expect_length in E. lia.
Qed.

Lemma read_digits_split (s ds r : js_string) :
  read_digits s = (ds, r) -> s = ds ++ r.
Proof.
  revert ds r. induction s as [|c s IH]; intros ds r; cbn [read_digits].
  - by intros [= <- <-].
  - destruct (is_digit c).
    + destruct (read_digits s) as [ds' r'] eqn:E. intros [= <- <-].
      cbn. f_equal. by apply IH.
    + by intros [= <- <-].
Qed.

Lemma read_digits_length (s ds r : js_string) :
  read_digits s = (ds, r) -> (length r <= length s)%nat.
Proof. intros ->%read_digits_split. rewrite length_app. lia. Qed.

Lemma parse_chars_length (s k r : js_string) :
  JSON.parse_chars s = Some (k, r) -> (length r < length s)%nat.
Proof.
  remember (length s) as n eqn:Hn. revert s k r Hn.
  induction n as [n IH] using lt_wf_ind. intros s k r -> H.
  assert (forall t k' r', (length t < length s)%nat ->
            JSON.parse_chars t = Some (k', r') -> (length r' < length s)%nat) as Hrec.
  { intros t k' r' Hlt Ht. specialize (IH _ Hlt t k' r' eq_refl Ht). lia. }
  destruct s as [|c s]; [done|]. cbn [JSON.parse_chars] in H. cbn [length] in *.
  repeat case_match; simplify_eq; cbn [length] in *; try lia;
    match goal with
    | E : JSON.parse_chars ?t = Some _ |- _ => apply Hrec in E; cbn [length]; lia
    end.
Qed.

Lemma parse_int_part_length (s ds r : js_string) :
  JSON.parse_int_part s = Some (ds, r) -> (length r < length s)%nat.
Proof.
  destruct s as [|c s]; [done|]. cbn [JSON.parse_int_part].
  destruct (c =? 48); [intros [= <- <-]; cbn; lia|].
  destruct (is_digit c) eqn:Hc; [|done]. intros [= H]. cbn [read_digits] in H.
  rewrite Hc in H. destruct (read_digits s) as [ds' r'] eqn:E. injection H as <- <-.
  apply read_digits_length in E. cbn. lia.
Qed.

Lemma parse_frac_part_length (s ds r : js_string) :
  JSON.parse_frac_part s = Some (ds, r) -> (length r <= length s)%nat.
Proof.
  destruct s as [|c s]; [by intros [= <- <-]|]. cbn [JSON.parse_frac_part].
  destruct (c =? 46); [|by intros [= <- <-]].
  destruct (read_digits s) as [[|d ds'] r'] eqn:E; [done|].
  intros [= <- <-]. apply read_digits_length in E. cbn. lia.
Qed.

Lemma parse_exp_part_length (s : js_string) (x : Z) (r : js_string) :
  JSON.parse_exp_part s = Some (x, r) -> (length r <= length s)%nat.
Proof.
  destruct s as [|c s]; [by intros [= <- <-]|]. cbn [JSON.parse_exp_part].
  destruct ((c =? 101) || (c =? 69)); [|by intros [= <- <-]].
  destruct s as [|y s'].
  - cbn. done.
  - destruct (y =? 45); [|destruct (y =? 43)];
      match goal with
      | |- context [read_digits ?t] =>
          destruct (read_digits t) as [[|d ds'] r'] eqn:E; [done|];
          intros [= <- <-]; apply read_digits_length in E; cbn [length] in *; lia
      end.
Qed.

Lemma parse_decimal_length (s : js_string) (m : N) (e : Z) (r : js_string) :
  JSON.parse_decimal s = Some (m, e, r) -> (length r < length s)%nat.
Proof.
  unfold JSON.parse_decimal.
  destruct (JSON.parse_int_part s) as [[int s2]|] eqn:E1; [|done].
  destruct (JSON.parse_frac_part s2) as [[frac s3]|] eqn:E2; [|done].
  destruct (JSON.parse_exp_part s3) as [[ex s4]|] eqn:E3; [|done].
  intros [= _ _ <-].
  apply parse_int_part_length in E1. apply parse_frac_part_length in E2.
  apply parse_exp_part_length in E3. lia.
Qed.

Lemma parse_number_length (s : js_string) (x : number) (r : js_string) :
  JSON.parse_number s = Some (x, r) -> (length r < length s)%nat.
Proof.
  unfold JSON.parse_number.
  set (p := match s with
            | [] => (false, s)
            | c :: r0 => if c =? 45 then (true, r0) else (false, s)
            end).
  assert (length p.2 <= length s)%nat as Hp.
  { subst p. destruct s as [|c s]; [done|]. destruct (c =? 45); cbn; lia. }
  destruct p as [neg s1]. cbn [snd] in Hp.
  destruct (JSON.parse_decimal s1) as [[[m e] s2]|] eqn:E; [|done].
  intros [= _ <-]. apply parse_decimal_length in E. lia.
Qed.

Lemma lift_length {A B} (g : A -> B) (o : option (A * js_string)) (b : B) (r : js_string) (n : nat) :
  (forall a r', o = Some (a, r') -> (length r' < n)%nat) ->
  JSON.lift g o = JSON.Parsed b r -> (length r < n)%nat.
Proof.
  intros H. destruct o as [[a r']|]; [|done]. cbn. intros [= <- <-]. by eapply H.
Qed.

Lemma literal_length (p t : js_string) (a : unit) (r : js_string) :
  option_map (pair tt) (JSON.expect_all p t) = Some (a, r) -> (length r <= length t)%nat.
Proof.
  destruct (JSON.expect_all p t) as [r'|] eqn:E; [|done].
  intros [= _ <-]. by apply expect_all_length in E.
Qed.

Lemma parse_value_S (f : nat) (s : js_string) :
  JSON.parse_value (S f) s =
    match JSON.skip_ws s with
    | [] => JSON.Malformed
    | c :: r =>
        if c =? 34 then JSON.lift JString (JSON.parse_chars r)
        else if c =? 91 then
          match JSON.expect 93 (JSON.skip_ws r) with
          | Some r' => JSON.Parsed (JArray []) r'
          | None => JSON.parse_elements f r []
          end
        else if c =? 123 then
          match JSON.expect 125 (JSON.skip_ws r) with
          | Some r' => JSON.Parsed (JObject []) r'
          | None => JSON.parse_members f r []
          end
        else if c =? 110 then
          JSON.lift (fun _ => JNull) (option_map (pair tt) (JSON.expect_all (u "ull") r))
        else if c =? 116 then
          JSON.lift (fun _ => JBool true) (option_map (pair tt) (JSON.expect_all (u "rue") r))
        else if c =? 102 then
          JSON.lift (fun _ => JBool false) (option_map (pair tt) (JSON.expect_all (u "alse") r))
        else JSON.lift JNumber (JSON.parse_number (c :: r))
    end.
Proof. done. Qed.

Lemma parse_elements_S (f : nat) (s : js_string) (acc : list JSValue) :
  JSON.parse_elements (S f) s acc =
    match JSON.parse_value f s with
    | JSON.Parsed v r =>
        match JSON.skip_ws r with
        | c :: r' =>
            if c =? 44 then JSON.parse_elements f r' (acc ++ [v])
            else if c =? 93 then JSON.Parsed (JArray (acc ++ [v])) r'
            else JSON.Malformed
        | [] => JSON.Malformed
        end
    | JSON.Malformed => JSON.Malformed
    | JSON.Exhausted => JSON.Exhausted
    end.
Proof. done. Qed.

Lemma parse_members_S (f : nat) (s : js_string) (acc : list (js_string * JSValue)) :
  JSON.parse_members (S f) s acc =
    match JSON.expect 34 (JSON.skip_ws s) with
    | None => JSON.Malformed
    | Some r =>
        match JSON.parse_chars r with
        | None => JSON.Malformed
        | Some (k, r1) =>
            match JSON.expect 58 (JSON.skip_ws r1) with
            | None => JSON.Malformed
            | Some r2 =>
                match JSON.parse_value f r2 with
                | JSON.Parsed v r3 =>
                    match JSON.skip_ws r3 with
                    | c :: r4 =>
                        if c =? 44 then JSON.parse_members f r4 (define_property k v acc)
                        else if c =? 125 then
                          JSON.Parsed (JObject (define_property k v acc)) r4
                        else JSON.Malformed
                    | [] => JSON.Malformed
                    end
                | JSON.Malformed => JSON.Malformed
                | JSON.Exhausted => JSON.Exhausted
                end
            end
        end
    end.
Proof. done. Qed.

(** A value, the rest of an array and the rest of an object each take at
    least one code unit. *)
Lemma parse_consumes (f : nat) :
  (forall s v r, JSON.parse_value f s = JSON.Parsed v r -> (length r < length s)%nat)
  /\ (forall s acc v r,
        JSON.parse_elements f s acc = JSON.Parsed v r -> (length r < length s)%nat)
  /\ (forall s acc v r,
        JSON.parse_members f s acc = JSON.Parsed v r -> (length r < length s)%nat).
Proof.
  induction f as [|f (IHv & IHe & IHm)]; [done|]. split; [|split].
  - intros s v r. rewrite parse_value_S.
    pose proof (skip_ws_length s) as Hws.
    destruct (JSON.skip_ws s) as [|c t] eqn:Es; [done|]. cbn [length] in Hws.
    destruct (c =? 34).
    { intros H. eapply lift_length in H; [exact H|].
      intros a r' Ha%parse_chars_length. lia. }
    destruct (c =? 91).
    { pose proof (skip_ws_length t).
      destruct (JSON.expect 93 (JSON.skip_ws t)) as [r'|] eqn:E.
      - apply expect_length in E. intros [= <- <-]. lia.
      - intros H'%IHe. lia. }
    destruct (c =? 123).
    { pose proof (skip_ws_length t).
      destruct (JSON.expect 125 (JSON.skip_ws t)) as [r'|] eqn:E.
      - apply expect_length in E. intros [= <- <-]. lia.
      - intros H'%IHm. lia. }
    destruct (c =? 110).
    { intros H. eapply lift_length in H; [exact H|].
      intros a r' Ha%literal_length. lia. }
    destruct (c =? 116).
    { intros H. eapply lift_length in H; [exact H|].
      intros a r' Ha%literal_length. lia. }
    destruct (c =? 102).
    { intros H. eapply lift_length in H; [exact H|].
      intros a r' Ha%literal_length. lia. }
    intros H. eapply lift_length in H; [exact H|].
    intros a r' Ha%parse_number_length. cbn [length] in Ha. lia.
  - intros s acc v r. rewrite parse_elements_S.
    destruct (JSON.parse_value f s) as [v' r'| |] eqn:Ev; [|done|done].
    apply IHv in Ev. pose proof (skip_ws_length r') as Hws.
    destruct (JSON.skip_ws r') as [|c t] eqn:Es; [done|]. cbn [length] in Hws.
    destruct (c =? 44); [intros H%IHe; lia|].
    destruct (c =? 93); [|done]. intros [= <- <-]. lia.
  - intros s acc v r. rewrite parse_members_S.
    pose proof (skip_ws_length s) as Hws.
    destruct (JSON.expect 34 (JSON.skip_ws s)) as [r0|] eqn:E0; [|done].
    apply expect_length in E0.
    destruct (JSON.parse_chars r0) as [[k r1]|] eqn:E1; [|done].
    apply parse_chars_length in E1. pose proof (skip_ws_length r1) as Hws1.
    destruct (JSON.expect 58 (JSON.skip_ws r1)) as [r2|] eqn:E2; [|done].
    apply expect_length in E2.
    destruct (JSON.parse_value f r2) as [v' r3| |] eqn:Ev; [|done|done].
    apply IHv in Ev. pose proof (skip_ws_length r3) as Hws3.
    destruct (JSON.skip_ws r3) as [|c t] eqn:Es; [done|]. cbn [length] in Hws3.
    destruct (c =? 44); [intros H%IHm; lia|].
    destruct (c =? 125); [|done]. intros [= <- <-]. lia.
Qed.

Lemma lift_not_exhausted {A B} (g : A -> B) (o : option (A * js_string)) :
  JSON.lift g o <> JSON.Exhausted.
Proof. by destruct o as [[a r]|]. Qed.

(** With twice the length of the text as fuel the reader never stops for
    lack of fuel. *)
Lemma parse_fuel_enough (f : nat) :
  (forall s, (2 * length s + 1 <= f)%nat -> JSON.parse_value f s <> JSON.Exhausted)
  /\ (forall s acc, (2 * length s + 2 <= f)%nat ->
        JSON.parse_elements f s acc <> JSON.Exhausted)
  /\ (forall s acc, (2 * length s + 2 <= f)%nat ->
        JSON.parse_members f s acc <> JSON.Exhausted).
Proof.
  induction f as [|f (IHv & IHe & IHm)]; [repeat split; intros; lia|].
  destruct (parse_consumes f) as (Cv & _ & _).
  split; [|split].
  - intros s Hf. rewrite parse_value_S.
    pose proof (skip_ws_length s) as Hws.
    destruct (JSON.skip_ws s) as [|c t] eqn:Es; [done|]. cbn [length] in Hws.
    repeat case_match; try done; try apply lift_not_exhausted.
    + apply IHe. lia.
    + apply IHm. lia.
  - intros s acc Hf. rewrite parse_elements_S.
    destruct (JSON.parse_value f s) as [v r| |] eqn:Ev; [|done|].
    + apply Cv in Ev. pose proof (skip_ws_length r) as Hws.
      destruct (JSON.skip_ws r) as [|c t] eqn:Es; [done|]. cbn [length] in Hws.
      repeat case_match; try done. apply IHe. lia.
    + exfalso. revert Ev. apply IHv. lia.
  - intros s acc Hf. rewrite parse_members_S.
    pose proof (skip_ws_length s) as Hws.
    destruct (JSON.expect 34 (JSON.skip_ws s)) as [r0|] eqn:E0; [|done].
    apply expect_length in E0.
    destruct (JSON.parse_chars r0) as [[k r1]|] eqn:E1; [|done].
    apply parse_chars_length in E1. pose proof (skip_ws_length r1) as Hws1.
    destruct (JSON.expect 58 (JSON.skip_ws r1)) as [r2|] eqn:E2; [|done].
    apply expect_length in E2.
    destruct (JSON.parse_value f r2) as [v r3| |] eqn:Ev; [|done|].
    + apply Cv in Ev. pose proof (skip_ws_length r3) as Hws3.
      destruct (JSON.skip_ws r3) as [|c t] eqn:Es; [done|]. cbn [length] in Hws3.
      repeat case_match; try done. apply IHm. lia.
    + exfalso. revert Ev. apply IHv. lia.
Qed.

(** More fuel does not change a result that was reached. *)
Lemma parse_fuel_step (f : nat) :
  (forall s, JSON.parse_value f s <> JSON.Exhausted ->
             JSON.parse_value (S f) s = JSON.parse_value f s)
  /\ (forall s acc, JSON.parse_elements f s acc <> JSON.Exhausted ->
        JSON.parse_elements (S f) s acc = JSON.parse_elements f s acc)
  /\ (forall s acc, JSON.parse_members f s acc <> JSON.Exhausted ->
        JSON.parse_members (S f) s acc = JSON.parse_members f s acc).
Proof.
  induction f as [|f (IHv & IHe & IHm)]; [by repeat split|].
  split; [|split].
  - intros s. rewrite (parse_value_S (S f)), (parse_value_S f).
    destruct (JSON.skip_ws s) as [|c t]; [done|].
    repeat case_match; try done.
    + apply IHe.
    + apply IHm.
  - intros s acc. rewrite (parse_elements_S (S f)), (parse_elements_S f).
    destruct (JSON.parse_value f s) as [v r| |] eqn:Ev; [| |done];
      rewrite IHv, Ev by (by rewrite Ev); [|done].
    destruct (JSON.skip_ws r) as [|c t]; [done|].
    repeat case_match; try done. apply IHe.
  - intros s acc. rewrite (parse_members_S (S f)), (parse_members_S f).
    destruct (JSON.expect 34 (JSON.skip_ws s)) as [r0|]; [|done].
    destruct (JSON.parse_chars r0) as [[k r1]|]; [|done].
    destruct (JSON.expect 58 (JSON.skip_ws r1)) as [r2|]; [|done].
    destruct (JSON.parse_value f r2) as [v r3| |] eqn:Ev; [| |done];
      rewrite IHv, Ev by (by rewrite Ev); [|done].
    destruct (JSON.skip_ws r3) as [|c t]; [done|].
    repeat case_match; try done. apply IHm.
Qed.

Lemma parse_value_fuel_mono (f f' : nat) (s : js_string) :
  (f <= f')%nat -> JSON.parse_value f s <> JSON.Exhausted ->
  JSON.parse_value f' s = JSON.parse_value f s.
Proof.
  intros Hle Hne. induction Hle as [|f' Hle IH]; [done|].
  rewrite <- IH. apply parse_fuel_step. by rewrite IH.
Qed.

(** [JSON.parse] never rejects a text for lack of fuel. *)
Lemma parse_fuel_suffices (text : js_string) :
  JSON.parse_value (2 * length text + 2) text <> JSON.Exhausted.
Proof. apply parse_fuel_enough. lia. Qed.

(** The result of [JSON.parse] is the result of the reader at any fuel that
    is enough for the text. *)
Lemma parse_by_any_fuel (f : nat) (text : js_string) (v : JSValue) (rest : js_string) :
  JSON.parse_value f text = JSON.Parsed v rest ->
  JSON.skip_ws rest = [] ->
  JSON.parse text = Some v.
Proof.
  intros Hv Hrest. unfold JSON.parse.
  set (F := (2 * length text + 2)%nat).
  pose proof (parse_fuel_suffices text) as HF. fold F in HF.
  assert (JSON.parse_value (max f F) text = JSON.Parsed v rest) as Hmax.
  { rewrite (parse_value_fuel_mono f) by (lia || by rewrite Hv). done. }
  rewrite (parse_value_fuel_mono F) in Hmax by (lia || done).
  by rewrite Hmax, Hrest.
Qed.

(** ** Reading back a serialized collection *)

Lemma parse_value_string (f : nat) (s tail : js_string) :
  JSON.parse_value (S f) (JSON.quote s ++ tail) = JSON.Parsed (JString s) tail.
Proof.
  rewrite parse_value_S. unfold JSON.quote. rewrite <- !app_assoc. cbn [app].
  cbn [JSON.skip_ws JSON.is_ws N.eqb Pos.eqb orb].
  by rewrite parse_chars_quote_units.
Qed.

Lemma parse_value_bool (f : nat) (b : bool) (tail : js_string) :
  JSON.parse_value (S f) (JSON.stringify (JBool b) ++ tail) = JSON.Parsed (JBool b) tail.
Proof. by destruct b. Qed.

Lemma parse_value_number (f : nat) (x : number) (tail : js_string) :
  normal_finite x = true -> number_end tail ->
  JSON.parse_value (S f) (JSON.number_text x ++ tail) = JSON.Parsed (JNumber x) tail.
Proof.
  intros Hx Htail. destruct x as [z e| | |]; try done.
  pose proof (parse_number_finite z e tail Hx Htail) as Hparse.
  destruct (number_text_head z e Hx) as (c & r & Heq & Hc).
  cbn [JSON.number_text]. rewrite parse_value_S.
  rewrite Heq in *. cbn [app] in *.
  assert (JSON.is_ws c = false /\ (c =? 34) = false /\ (c =? 91) = false
          /\ (c =? 123) = false /\ (c =? 110) = false /\ (c =? 116) = false
          /\ (c =? 102) = false) as (Hws & H1 & H2 & H3 & H4 & H5 & H6).
  { destruct Hc as [->|Hc]; [done|]. apply is_digit_spec in Hc.
    unfold JSON.is_ws. repeat split; try (apply N.eqb_neq; lia).
    repeat (apply orb_false_iff; split); apply N.eqb_neq; lia. }
  cbn [JSON.skip_ws]. rewrite Hws, H1, H2, H3, H4, H5, H6, Hparse. done.
Qed.

(** One member of an object, followed by a comma or by the closing brace. *)
Lemma parse_members_member (f : nat) (k vtext : js_string) (v : JSValue)
    (acc : list (js_string * JSValue)) (c : code_unit) (rest : js_string) :
  JSON.parse_value f (vtext ++ c :: rest) = JSON.Parsed v (c :: rest) ->
  JSON.is_ws c = false ->
  JSON.parse_members (S f) (JSON.quote k ++ 58 :: vtext ++ c :: rest) acc =
    if c =? 44 then JSON.parse_members f rest (define_property k v acc)
    else if c =? 125 then JSON.Parsed (JObject (define_property k v acc)) rest
    else JSON.Malformed.
Proof.
  intros Hv Hc. rewrite parse_members_S. unfold JSON.quote.
  rewrite <- !app_assoc. cbn [app].
  cbn [JSON.skip_ws JSON.is_ws N.eqb Pos.eqb orb JSON.expect].
  rewrite parse_chars_quote_units.
  cbn [JSON.skip_ws JSON.is_ws N.eqb Pos.eqb orb JSON.expect].
  rewrite Hv. cbn [JSON.skip_ws]. by rewrite Hc.
Qed.

Lemma expect_before_quote (c : code_unit) (k tail : js_string) :
  c <> 34 -> JSON.expect c (JSON.skip_ws (JSON.quote k ++ tail)) = None.
Proof.
  intros Hc. replace (JSON.skip_ws (JSON.quote k ++ tail)) with (JSON.quote k ++ tail) by done.
  unfold JSON.quote. cbn [app JSON.expect].
  by destruct (N.eqb_spec 34 c) as [<-|].
Qed.

Lemma todo_properties (a b c d : JSValue) :
  define_property (u "createdAt") d
    (define_property (u "completed") c
       (define_property (u "text") b (define_property (u "id") a [])))
  = [(u "id", a); (u "text", b); (u "completed", c); (u "createdAt", d)].
Proof. reflexivity. Qed.

Lemma stringify_todo (t : Todo) :
  JSON.stringify (Todo.to_value t) =
    [123] ++ JSON.quote (u "id") ++ [58] ++ JSON.quote (Todo.id t) ++ [44]
          ++ JSON.quote (u "text") ++ [58] ++ JSON.quote (Todo.text t) ++ [44]
          ++ JSON.quote (u "completed") ++ [58]
          ++ JSON.stringify (JBool (Todo.completed t)) ++ [44]
          ++ JSON.quote (u "createdAt") ++ [58]
          ++ JSON.number_text (Todo.createdAt t) ++ [125].
Proof.
  unfold Todo.to_value.
  cbn [JSON.stringify List.map JSON.join fst snd]. by rewrite <- !app_assoc.
Qed.

Lemma parse_value_todo (f : nat) (t : Todo) (rest : js_string) :
  (6 <= f)%nat -> normal_finite (Todo.createdAt t) = true ->
  JSON.parse_value f (JSON.stringify (Todo.to_value t) ++ rest)
  = JSON.Parsed (Todo.to_value t) rest.
Proof.
  intros Hf Hnum. destruct f as [|[|[|[|[|[|f]]]]]]; try lia.
  rewrite stringify_todo, parse_value_S. rewrite <- !app_assoc.
  cbn [app JSON.skip_ws JSON.is_ws N.eqb Pos.eqb orb].
  rewrite expect_before_quote by done.
  rewrite (parse_members_member _ (u "id") _ (JString (Todo.id t)));
    [|apply parse_value_string|done].
  cbn [N.eqb Pos.eqb].
  rewrite (parse_members_member _ (u "text") _ (JString (Todo.text t)));
    [|apply parse_value_string|done].
  cbn [N.eqb Pos.eqb].
  rewrite (parse_members_member _ (u "completed") _ (JBool (Todo.completed t)));
    [|apply parse_value_bool|done].
  cbn [N.eqb Pos.eqb].
  rewrite (parse_members_member _ (u "createdAt") _ (JNumber (Todo.createdAt t)));
    [|by apply parse_value_number|done].
  cbn [N.eqb Pos.eqb]. by rewrite todo_properties.
Qed.

Lemma join_cons2 (x y : js_string) (l : list js_string) :
  JSON.join (x :: y :: l) = x ++ [44] ++ JSON.join (y :: l).
Proof. done. Qed.

Lemma parse_elements_todos (ts : list Todo) (f : nat) (acc : list JSValue) (rest : js_string) :
  ts <> [] -> (length ts + 6 <= f)%nat ->
  Forall (fun t => normal_finite (Todo.createdAt t) = true) ts ->
  JSON.parse_elements f
    (JSON.join (List.map JSON.stringify (List.map Todo.to_value ts)) ++ 93 :: rest) acc
  = JSON.Parsed (JArray (acc ++ List.map Todo.to_value ts)) rest.
Proof.
  revert f acc. induction ts as [|t ts IH]; intros f acc Hne Hf Hall; [done|].
  apply Forall_cons in Hall as [Ht Hall].
  destruct f as [|f]; [cbn in Hf; lia|]. cbn [length] in Hf.
  rewrite parse_elements_S. destruct ts as [|t' ts].
  - cbn [List.map JSON.join].
    rewrite parse_value_todo by (done || lia). by cbn.
  - cbn [List.map]. rewrite join_cons2, <- !app_assoc. cbn [app].
    rewrite parse_value_todo by (done || lia).
    cbn [JSON.skip_ws JSON.is_ws N.eqb Pos.eqb orb].
    change (JSON.stringify (Todo.to_value t') :: List.map JSON.stringify (List.map Todo.to_value ts))
      with (List.map JSON.stringify (List.map Todo.to_value (t' :: ts))).
    rewrite IH by (done || cbn [length] in *; lia).
    by rewrite <- app_assoc.
Qed.

Lemma stringify_todos_head (t : Todo) (ts : list Todo) :
  exists r, JSON.stringify (todos_value (t :: ts)) = 91 :: 123 :: r
            /\ 123 :: r = JSON.join (List.map JSON.stringify (List.map Todo.to_value (t :: ts)))
                          ++ [93].
Proof.
  unfold todos_value. cbn [JSON.stringify app].
  destruct ts as [|t' ts]; cbn [List.map].
  - cbn [JSON.join]. rewrite stringify_todo. cbn [app]. eauto.
  - rewrite join_cons2, stringify_todo. cbn [app]. eauto.
Qed.

Lemma parse_value_todos (ts : list Todo) (f : nat) :
  (length ts + 7 <= f)%nat ->
  Forall (fun t => normal_finite (Todo.createdAt t) = true) ts ->
  JSON.parse_value f (JSON.stringify (todos_value ts)) = JSON.Parsed (todos_value ts) [].
Proof.
  intros Hf Hall. destruct f as [|f]; [lia|]. destruct ts as [|t ts]; [done|].
  destruct (stringify_todos_head t ts) as (r & -> & Hr).
  rewrite parse_value_S. cbn [JSON.skip_ws JSON.is_ws N.eqb Pos.eqb orb JSON.expect].
  rewrite Hr. rewrite parse_elements_todos by (done || cbn [length] in *; lia). done.
Qed.

(** [JSON.parse(JSON.stringify(todos))] is [todos] again. *)
Lemma parse_stringify_todos (ts : list Todo) :
  Forall (fun t => normal_finite (Todo.createdAt t) = true) ts ->
  JSON.parse (JSON.stringify (todos_value ts)) = Some (todos_value ts).
Proof.
  intros Hall. apply (parse_by_any_fuel (length ts + 7) _ _ []); [|done].
  by apply parse_value_todos.
Qed.

(** * Loading and saving *)

Lemma parse_empty : JSON.parse [] = None.
Proof. reflexivity. Qed.

(** [saveTodos] never throws, and it changes the storage only by writing the
    serialized collection under the key. *)
Lemma saveTodos_completes (ts : list Todo) (w : World) :
  exists w', saveTodos ts w = (Normal tt, w')
    /\ (storage w' = storage w
        \/ storage w' = {| accessible := true; quota := quota (storage w);
                           items := <[STORAGE_KEY := JSON.stringify (todos_value ts)]>
                                      (items (storage w)) |}).
Proof.
  unfold saveTodos, try_catch, localStorage.setItem, console.warn.
  repeat case_match; simplify_eq; eexists; split; try done; cbn; auto.
Qed.

Lemma loadTodos_parsed (w : World) (raw : js_string) (v : JSValue) :
  stored w = Some raw -> JSON.parse raw = Some v -> loadTodos w = (Normal v, w).
Proof.
  unfold stored, loadTodos, try_catch, bind, localStorage.getItem, JSON_parse, ret.
  destruct (accessible (storage w)); [|done]. intros -> Hv.
  destruct raw as [|c raw]; [by rewrite parse_empty in Hv|].
  cbn [truthy_string]. by rewrite Hv.
Qed.

(** C1, at a stored text that is JSON but no array of tasks.  With
    [{"todos":[]}] under the key, [loadTodos] completes normally and returns
    the object the text denotes, under its cast [as Todo[]] and its result
    type [Todo[]]: the value is not an array of tasks, and it is not the
    empty array that every failure caught by the [try] gives. *)
Lemma loadTodos_returns_any_json :
  let w := {| storage := {| accessible := true; quota := 100;
                            items := {[ STORAGE_KEY := json_text "{'todos':[]}" ]} |};
              console := [] |} in
  stored w = Some (json_text "{'todos':[]}")
  /\ JSON.parse (json_text "{'todos':[]}") = Some (JObject [(u "todos", JArray [])])
  /\ is_todo_array (JObject [(u "todos", JArray [])]) = false
  /\ loadTodos w = (Normal (JObject [(u "todos", JArray [])]), w)
  /\ fst (loadTodos w) <> Normal (JArray []).
Proof. vm_compute. by repeat split. Qed.

(** C2, as the code has it.  When every creation time of the collection is
    a finite number and the storage accepts the write, [loadTodos] after
    [saveTodos] returns the collection: the same tasks with the same fields
    in the same order.  The console is left as it was. *)
Theorem save_then_load (ts : list Todo) (w : World) :
  Forall (fun t => normal_finite (Todo.createdAt t) = true) ts ->
  fst (localStorage.setItem STORAGE_KEY (JSON.stringify (todos_value ts)) w) = Normal tt ->
  exists w', (saveTodos ts >> loadTodos) w = (Normal (todos_value ts), w')
             /\ stored w' = Some (JSON.stringify (todos_value ts))
             /\ console w' = console w.
Proof.
  intros Hts Hwrite.
  unfold bind, saveTodos, try_catch. revert Hwrite.
  unfold localStorage.setItem.
  destruct (accessible (storage w)); [|done].
  destruct (_ <=? _)%nat; [|done]. intros _.
  set (w1 := {| storage := _; console := _ |}).
  assert (stored w1 = Some (JSON.stringify (todos_value ts))) as Hstored.
  { unfold stored. cbn. apply lookup_insert_eq. }
  exists w1. split; [|done].
  apply (loadTodos_parsed _ _ _ Hstored). by apply parse_stringify_todos.
Qed.

Lemma save_then_load_witness :
  let c := [Todo.mk (u "b") (u "Walk dog") false (of_Z 1757954306999);
            Todo.mk (u "a") (u "Buy " ++ [34] ++ u "milk" ++ [34; 10; 55357])
                    true (mk_finite 17579543067525 (-1))] in
  let w := {| storage := {| accessible := true; quota := 5000; items := ∅ |};
              console := [] |} in
  fst ((saveTodos c >> loadTodos) w) = Normal (todos_value c).
Proof.
  intros c w. destruct (save_then_load c w) as (w' & H & _).
  - repeat constructor.
  - by vm_compute.
  - by rewrite H.
Defined.

(** As stated for every collection and every storage, the round trip fails.
    A storage without room rejects the write, which [saveTodos] reports and
    drops, and [loadTodos] returns what was stored before, here the empty
    collection.  And a creation time that is not finite is written as
    [null]. *)
Lemma save_then_load_counterexample :
  (let c := [Todo.mk (u "a") (u "Buy milk") false (of_Z 1757954306752)] in
   let w := {| storage := {| accessible := true; quota := 40;
                             items := {[ STORAGE_KEY := u "[]" ]} |};
               console := [] |} in
   (saveTodos c >> loadTodos) w
   = (Normal (JArray []),
      {| storage := storage w;
         console := [(u "Failed to save todos", QuotaExceededError)] |})
   /\ fst ((saveTodos c >> loadTodos) w) <> Normal (todos_value c))
  /\ (let c := [Todo.mk (u "a") (u "Buy milk") false NaN] in
      let w := {| storage := {| accessible := true; quota := 5000; items := ∅ |};
                  console := [] |} in
      fst ((saveTodos c >> loadTodos) w)
      = Normal (JArray [JObject [(u "id", JString (u "a"));
                                 (u "text", JString (u "Buy milk"));
                                 (u "completed", JBool false);
                                 (u "createdAt", JNull)]])
      /\ fst ((saveTodos c >> loadTodos) w) <> Normal (todos_value c)).
Proof. vm_compute. by repeat split. Qed.

(** ** What saving and loading do to the storage and the console *)

(** X1.  [saveTodos] never throws.  When the storage accepts the write, the
    key holds the serialized collection afterwards, every other key and the
    console are as before.  When the storage rejects it, the storage is as
    before and the console has one more line, "Failed to save todos" with
    the error. *)
Theorem saveTodos_outcome (ts : list Todo) (w : World) :
  let text := JSON.stringify (todos_value ts) in
  (fst (localStorage.setItem STORAGE_KEY text w) = Normal tt ->
   fst (saveTodos ts w) = Normal tt
   /\ stored (snd (saveTodos ts w)) = Some text
   /\ (forall k, k <> STORAGE_KEY ->
         items (storage (snd (saveTodos ts w))) !! k = items (storage w) !! k)
   /\ console (snd (saveTodos ts w)) = console w)
  /\ (forall e, fst (localStorage.setItem STORAGE_KEY text w) = Throw e ->
        saveTodos ts w
        = (Normal tt,
           {| storage := storage w;
              console := console w ++ [(u "Failed to save todos", e)] |})).
Proof.
  intros text. unfold saveTodos, try_catch, localStorage.setItem, console.warn, stored.
  fold text. destruct (accessible (storage w)) eqn:Ha.
  - destruct (_ <=? _)%nat; cbn.
    + split; [|done]. intros _. repeat split; try done.
      * apply lookup_insert_eq.
      * intros k Hk. by apply lookup_insert_ne.
    + split; [done|]. by intros e [= <-].
  - cbn. split; [done|]. by intros e [= <-].
Qed.

Lemma saveTodos_outcome_witness :
  let ts := [Todo.mk (u "a") (u "Buy milk") false (of_Z 1757954306752)] in
  let full := {| storage := {| accessible := true; quota := 20;
                               items := {[ u "theme" := u "dark" ]} |};
                 console := [] |} in
  let blocked := {| storage := {| accessible := false; quota := 5000; items := ∅ |};
                    console := [] |} in
  let roomy := {| storage := {| accessible := true; quota := 5000;
                                items := {[ u "theme" := u "dark" ]} |};
                  console := [] |} in
  console (snd (saveTodos ts full)) = [(u "Failed to save todos", QuotaExceededError)]
  /\ console (snd (saveTodos ts blocked)) = [(u "Failed to save todos", SecurityError)]
  /\ items (storage (snd (saveTodos ts roomy))) !! u "theme" = Some (u "dark").
Proof.
  intros ts full blocked roomy. split; [|split].
  - destruct (saveTodos_outcome ts full) as [_ H].
    rewrite (H QuotaExceededError); [done|by vm_compute].
  - destruct (saveTodos_outcome ts blocked) as [_ H].
    rewrite (H SecurityError); [done|by vm_compute].
  - destruct (saveTodos_outcome ts roomy) as [H _].
    destruct H as (_ & _ & H & _); [by vm_compute|].
    rewrite H; by vm_compute.
Defined.

(** X2.  [loadTodos] never changes the storage.  It writes to the console
    exactly when reading the storage throws or the stored text is not empty
    and not JSON: one line, "Failed to load todos" with the error.  A missing
    key, an empty text and a text that is JSON are loaded in silence. *)
Theorem loadTodos_console (w : World) :
  storage (snd (loadTodos w)) = storage w
  /\ (accessible (storage w) = false ->
      console (snd (loadTodos w)) = console w ++ [(u "Failed to load todos", SecurityError)])
  /\ (forall raw, stored w = Some raw -> raw <> [] -> JSON.parse raw = None ->
        console (snd (loadTodos w)) = console w ++ [(u "Failed to load todos", SyntaxError)])
  /\ (accessible (storage w) = true ->
      (forall raw, stored w = Some raw -> raw = [] \/ is_Some (JSON.parse raw)) ->
      snd (loadTodos w) = w).
Proof.
  unfold stored, loadTodos, try_catch, bind, localStorage.getItem, JSON_parse,
    console.warn, ret, throw.
  destruct (accessible (storage w)); [|by cbn].
  destruct (items (storage w) !! STORAGE_KEY) as [raw|]; [|by cbn].
  destruct raw as [|c raw]; cbn [truthy_string].
  - cbn. repeat split; try done. by intros raw [= <-].
  - destruct (JSON.parse (c :: raw)) as [v|] eqn:E; cbn.
    + repeat split; try done. intros raw' [= <-]. by rewrite E.
    + repeat split; try done. intros _ H.
      destruct (H _ eq_refl) as [?|[v Hv]]; [done|]. by rewrite E in Hv.
Qed.

Lemma loadTodos_console_witness :
  let w := {| storage := {| accessible := true; quota := 100;
                            items := {[ STORAGE_KEY := u "[1,2" ]} |};
              console := [] |} in
  let blocked := {| storage := {| accessible := false; quota := 100; items := ∅ |};
                    console := [] |} in
  let empty := {| storage := {| accessible := true; quota := 100;
                                items := {[ STORAGE_KEY := [] ]} |};
                  console := [] |} in
  console (snd (loadTodos w)) = [(u "Failed to load todos", SyntaxError)]
  /\ console (snd (loadTodos blocked)) = [(u "Failed to load todos", SecurityError)]
  /\ snd (loadTodos empty) = empty.
Proof.
  intros w blocked empty. split; [|split].
  - destruct (loadTodos_console w) as (_ & _ & H & _).
    rewrite (H (u "[1,2")); by vm_compute.
  - destruct (loadTodos_console blocked) as (_ & H & _). by rewrite H.
  - destruct (loadTodos_console empty) as (_ & _ & _ & H).
    apply H; [done|]. intros raw Hraw. left. vm_compute in Hraw. congruence.
Defined.

(** X22.  [loadTodos] always completes normally and leaves the storage as it
    is.  It returns the empty array in each case its code provides for: when
    reading the storage throws, when nothing is stored under the key, and
    when the stored text is not JSON (the empty text included). *)
Theorem loadTodos_falls_back (w : World) :
  (exists v w', loadTodos w = (Normal v, w') /\ storage w' = storage w)
  /\ (accessible (storage w) = false -> fst (loadTodos w) = Normal (JArray []))
  /\ (stored w = None -> fst (loadTodos w) = Normal (JArray []))
  /\ (forall raw, stored w = Some raw -> JSON.parse raw = None ->
        fst (loadTodos w) = Normal (JArray [])).
Proof.
  unfold stored, loadTodos, try_catch, bind, localStorage.getItem, JSON_parse,
    console.warn, ret, throw.
  destruct (accessible (storage w)); [|by repeat split; eauto].
  destruct (items (storage w) !! STORAGE_KEY) as [raw|]; [|by repeat split; eauto].
  destruct raw as [|c raw]; cbn [truthy_string].
  - split; [eauto|]. by repeat split.
  - destruct (JSON.parse (c :: raw)) as [v|] eqn:E; cbn.
    + split; [eauto|]. repeat split; try done.
      intros raw' [= <-]. by rewrite E.
    + split; [eauto|]. by repeat split.
Qed.

Lemma loadTodos_falls_back_witness :
  let w := {| storage := {| accessible := true; quota := 100;
                            items := {[ STORAGE_KEY := json_text "[{'id':'a','te" ]} |};
              console := [] |} in
  fst (loadTodos w) = Normal (JArray []).
Proof.
  intros w. destruct (loadTodos_falls_back w) as (_ & _ & _ & H).
  apply (H (json_text "[{'id':'a','te")); by vm_compute.
Defined.

(** X3.  Of two saves the last accepted one is what a load returns: when the
    second write is accepted the second collection is loaded, whether or not
    the first write was; when the first is accepted and the second rejected,
    the first collection is loaded. *)
Theorem last_accepted_write_wins (a b : list Todo) (w : World) :
  let wa := snd (saveTodos a w) in
  let write_b := fst (localStorage.setItem STORAGE_KEY (JSON.stringify (todos_value b)) wa) in
  (Forall (fun t => normal_finite (Todo.createdAt t) = true) b ->
   write_b = Normal tt ->
   fst ((saveTodos a >> saveTodos b >> loadTodos) w) = Normal (todos_value b))
  /\ (Forall (fun t => normal_finite (Todo.createdAt t) = true) a ->
      fst (localStorage.setItem STORAGE_KEY (JSON.stringify (todos_value a)) w) = Normal tt ->
      write_b <> Normal tt ->
      fst ((saveTodos a >> saveTodos b >> loadTodos) w) = Normal (todos_value a)).
Proof.
  intros wa write_b.
  assert (forall ts w0, fst (saveTodos ts w0) = Normal tt) as Hnorm.
  { intros ts w0. by destruct (saveTodos_completes ts w0) as (w' & -> & _). }
  assert (forall ts w0,
            fst (localStorage.setItem STORAGE_KEY (JSON.stringify (todos_value ts)) w0)
            = Normal tt ->
            stored (snd (saveTodos ts w0)) = Some (JSON.stringify (todos_value ts)))
    as Hacc.
  { intros ts w0. unfold saveTodos, try_catch, localStorage.setItem, stored.
    destruct (accessible (storage w0)); [|done].
    destruct (_ <=? _)%nat; [|done]. intros _. cbn. apply lookup_insert_eq. }
  assert (forall ts w0,
            fst (localStorage.setItem STORAGE_KEY (JSON.stringify (todos_value ts)) w0)
            <> Normal tt ->
            stored (snd (saveTodos ts w0)) = stored w0) as Hrej.
  { intros ts w0. unfold saveTodos, try_catch, localStorage.setItem, stored, console.warn.
    destruct (accessible (storage w0)) eqn:Ha; cbn; [|by rewrite Ha].
    destruct (_ <=? _)%nat; cbn; [done|by rewrite Ha]. }
  assert (forall w0, (saveTodos a >> saveTodos b >> loadTodos) w0
                     = loadTodos (snd (saveTodos b (snd (saveTodos a w0))))) as Hseq.
  { intros w0. unfold bind.
    pose proof (Hnorm a w0) as Ha. destruct (saveTodos a w0) as [ra w1]. cbn in Ha. subst ra.
    pose proof (Hnorm b w1) as Hb. cbn. destruct (saveTodos b w1) as [rb w2].
    cbn in Hb. by subst rb. }
  rewrite Hseq. fold wa. split.
  - intros Hb Hwrite. apply Hacc in Hwrite.
    by rewrite (loadTodos_parsed _ _ _ Hwrite (parse_stringify_todos b Hb)).
  - intros Ha Hwrite_a Hwrite_b. apply Hrej in Hwrite_b. apply Hacc in Hwrite_a.
    fold wa in Hwrite_a. rewrite Hwrite_a in Hwrite_b.
    by rewrite (loadTodos_parsed _ _ _ Hwrite_b (parse_stringify_todos a Ha)).
Qed.

Lemma last_accepted_write_wins_witness :
  let a := [Todo.mk (u "a") (u "Buy milk") false (of_Z 1757954306752)] in
  let b := Todo.mk (u "b") (u "Walk dog") false (of_Z 1757954306999) :: a in
  let roomy := {| storage := {| accessible := true; quota := 5000; items := ∅ |};
                  console := [] |} in
  let tight := {| storage := {| accessible := true; quota := 100; items := ∅ |};
                  console := [] |} in
  fst ((saveTodos a >> saveTodos b >> loadTodos) roomy) = Normal (todos_value b)
  /\ fst ((saveTodos a >> saveTodos b >> loadTodos) tight) = Normal (todos_value a).
Proof.
  intros a b roomy tight. split.
  - apply (last_accepted_write_wins a b roomy); [repeat constructor|by vm_compute].
  - apply (last_accepted_write_wins a b tight);
      [repeat constructor|by vm_compute|by vm_compute].
Defined.

(** * The component over a run of events *)

Lemma sublist_map {A B} (g : A -> B) (l k : list A) :
  l `sublist_of` k -> List.map g l `sublist_of` List.map g k.
Proof. induction 1; cbn; by constructor. Qed.

Lemma map_stamp_same (g : Todo -> Todo) (ts : list Todo) :
  (forall t, stamp (g t) = stamp t) -> List.map stamp (List.map g ts) = List.map stamp ts.
Proof. intros H. rewrite List.map_map. apply map_ext. exact H. Qed.

Lemma toggleTodo_stamps (i : js_string) (st : Home.State) :
  List.map stamp (Home.todos (Home.toggleTodo i st)) = List.map stamp (Home.todos st).
Proof. cbn. apply map_stamp_same. intros t. by destruct (str_eqb (Todo.id t) i). Qed.

Lemma saveEdit_stamps (i : js_string) (st : Home.State) :
  List.map stamp (Home.todos (Home.saveEdit i st))
    `sublist_of` List.map stamp (Home.todos st).
Proof.
  unfold Home.saveEdit. destruct (negb (truthy_string (trim (Home.editingText st)))); cbn.
  - apply sublist_map, filter_sublist.
  - rewrite map_stamp_same; [done|]. intros t. by destruct (str_eqb (Todo.id t) i).
Qed.

Lemma Enter_is_not_Escape : u "Enter" <> u "Escape".
Proof. intros H. vm_compute in H. discriminate. Qed.

Lemma onKeyDown_cases (key i : js_string) (st : Home.State) :
  key = u "Enter" /\ Home.onKeyDown key i st = Home.saveEdit i st
  \/ key = u "Escape" /\ Home.onKeyDown key i st = Home.cancelEdit st
  \/ key <> u "Enter" /\ key <> u "Escape" /\ Home.onKeyDown key i st = st.
Proof.
  unfold Home.onKeyDown, str_eqb.
  destruct (decide (key = u "Enter")) as [->|Hne].
  - left. rewrite (bool_decide_eq_true_2 (u "Enter" = u "Enter")) by done.
    by rewrite (bool_decide_eq_false_2 _ Enter_is_not_Escape).
  - rewrite (bool_decide_eq_false_2 _ Hne).
    destruct (decide (key = u "Escape")) as [->|Hne'].
    + right. left. by rewrite (bool_decide_eq_true_2 (u "Escape" = u "Escape")).
    + right. right. by rewrite (bool_decide_eq_false_2 _ Hne').
Qed.

(** No handler reorders the collection or touches an id or a creation time:
    after one event the stamps are a subsequence of the stamps before, with
    the submitted one in front. *)
Lemma handle_stamps (ev : Home.Event) (st : Home.State) :
  List.map stamp (Home.todos (Home.handle ev st))
    `sublist_of` submitted [ev] ++ List.map stamp (Home.todos st).
Proof.
  destruct ev as [uuid now|v|f| |i|todo|v|key i|i| |i]; cbn [Home.handle submitted app];
    try done.
  - unfold Home.addTodo. destruct (negb (truthy_string (trim (Home.text st)))).
    + by apply sublist_cons.
    + done.
  - destruct (Home.clearDisabled st); [done|]. apply sublist_map, filter_sublist.
  - by rewrite toggleTodo_stamps.
  - destruct (onKeyDown_cases key i st) as [[_ ->]|[[_ ->]|(_ & _ & ->)]]; try done.
    apply saveEdit_stamps.
  - apply saveEdit_stamps.
  - apply sublist_map, filter_sublist.
Qed.

Lemma submitted_app (evs evs' : list Home.Event) :
  submitted (evs ++ evs') = submitted evs ++ submitted evs'.
Proof.
  induction evs as [|ev evs IH]; [done|].
  destruct ev; cbn [app submitted]; by rewrite ?IH.
Qed.

Lemma play_stamps (evs : list Home.Event) (st : Home.State) :
  List.map stamp (Home.todos (Home.play evs st))
    `sublist_of` rev (submitted evs) ++ List.map stamp (Home.todos st).
Proof.
  revert st. induction evs as [|ev evs IH]; intros st; [done|].
  change (Home.play (ev :: evs) st) with (Home.play evs (Home.handle ev st)).
  etrans; [apply IH|].
  change (ev :: evs) with ([ev] ++ evs).
  rewrite submitted_app, rev_app_distr, <- app_assoc.
  apply sublist_app; [done|].
  replace (rev (submitted [ev])) with (submitted [ev]) by (by destruct ev).
  apply handle_stamps.
Qed.

(** X4.  Through any run of events the collection keeps its order and its
    tasks keep their id and creation time: the (id, creation time) pairs at
    the end are a subsequence of the submitted ones, newest first, followed
    by those of the start. *)
Theorem play_keeps_order_and_stamps (evs : list Home.Event) (st : Home.State) :
  List.map stamp (Home.todos (Home.play evs st))
    `sublist_of` rev (submitted evs) ++ List.map stamp (Home.todos st).
Proof. apply play_stamps. Qed.

(** X5.  When the submitted identifiers differ from one another and from
    the ids of the collection at the start, no two tasks share an id after
    the run. *)
Theorem play_unique_ids (evs : list Home.Event) (st : Home.State) :
  NoDup (List.map fst (submitted evs) ++ ids (Home.todos st)) ->
  NoDup (ids (Home.todos (Home.play evs st))).
Proof.
  intros Hnd.
  assert (ids (Home.todos (Home.play evs st))
            `sublist_of` rev (List.map fst (submitted evs)) ++ ids (Home.todos st)) as Hsub.
  { pose proof (sublist_map fst _ _ (play_stamps evs st)) as H.
    rewrite List.map_app, List.map_rev, !List.map_map in H. exact H. }
  refine (sublist_NoDup _ _ _ Hsub).
  apply NoDup_app in Hnd as (H1 & H2 & H3). apply NoDup_app. repeat split.
  - by apply NoDup_ListNoDup, NoDup_rev, NoDup_ListNoDup.
  - intros x Hx. apply H2. apply list_elem_of_In. apply in_rev.
    by apply list_elem_of_In.
  - done.
Qed.

Lemma play_unique_ids_witness :
  let evs := [Home.ChangeText (u "Buy milk"); Home.Submit (u "id-1") (of_Z 1000);
              Home.ChangeText (u " Walk dog "); Home.Submit (u "id-2") (of_Z 2000);
              Home.ChangeCheckbox (u "id-1"); Home.ClickDelete (u "id-2")] in
  NoDup (ids (Home.todos (Home.play evs (Home.init [])))).
Proof.
  intros evs. apply (play_unique_ids evs (Home.init [])).
  apply (bool_decide_unpack _). by vm_compute.
Defined.

Lemma Forall_filter_bool {A} (P : A -> Prop) (f : A -> bool) (l : list A) :
  Forall P l -> Forall P (List.filter f l).
Proof.
  rewrite !Forall_forall. intros H x Hx. apply H.
  by apply filter_elem_of in Hx as [? _].
Qed.

Lemma Forall_map_same {A} (P : A -> Prop) (g : A -> A) (l : list A) :
  (forall x, P x -> P (g x)) -> Forall P l -> Forall P (List.map g l).
Proof. intros Hg. induction 1; cbn; constructor; auto. Qed.

Lemma trim_trimmed (s : js_string) (t : Todo) :
  trim s <> [] -> Todo.text t = trim s -> trimmed_text t.
Proof.
  intros Hne Ht. unfold trimmed_text. rewrite Ht. split; [done|].
  by destruct (trim_ends s) as (_ & _ & ?).
Qed.

Lemma saveEdit_trimmed (i : js_string) (st : Home.State) :
  Forall trimmed_text (Home.todos st) ->
  Forall trimmed_text (Home.todos (Home.saveEdit i st)).
Proof.
  intros H. unfold Home.saveEdit.
  destruct (negb (truthy_string (trim (Home.editingText st)))) eqn:E; cbn.
  - by apply Forall_filter_bool.
  - apply Forall_map_same; [|done]. intros t Ht.
    destruct (str_eqb (Todo.id t) i); [|done].
    apply (trim_trimmed (Home.editingText st)); [|done].
    apply truthy_string_nonempty. by destruct (truthy_string _).
Qed.

Lemma handle_trimmed (ev : Home.Event) (st : Home.State) :
  Forall trimmed_text (Home.todos st) ->
  Forall trimmed_text (Home.todos (Home.handle ev st)).
Proof.
  intros H.
  destruct ev as [uuid now|v|f| |i|todo|v|key i|i| |i]; cbn [Home.handle]; try done.
  - unfold Home.addTodo.
    destruct (negb (truthy_string (trim (Home.text st)))) eqn:E; [done|]. cbn.
    constructor; [|done]. apply (trim_trimmed (Home.text st)); [|done].
    apply truthy_string_nonempty. by destruct (truthy_string _).
  - destruct (Home.clearDisabled st); [done|]. by apply Forall_filter_bool.
  - cbn. apply Forall_map_same; [|done]. intros t Ht.
    by destruct (str_eqb (Todo.id t) i).
  - destruct (onKeyDown_cases key i st) as [[_ ->]|[[_ ->]|(_ & _ & ->)]]; try done.
    by apply saveEdit_trimmed.
  - by apply saveEdit_trimmed.
  - by apply Forall_filter_bool.
Qed.

(** X6.  A collection whose texts are all trimmed and not empty stays so
    through any run of events: [addTodo] and [saveEdit] store trimmed texts
    only, and an edit to the empty text removes the task. *)
Theorem play_trimmed_texts (evs : list Home.Event) (st : Home.State) :
  Forall trimmed_text (Home.todos st) ->
  Forall trimmed_text (Home.todos (Home.play evs st)).
Proof.
  revert st. induction evs as [|ev evs IH]; intros st H; [done|].
  change (Home.play (ev :: evs) st) with (Home.play evs (Home.handle ev st)).
  by apply IH, handle_trimmed.
Qed.

Lemma play_trimmed_texts_witness :
  let evs := [Home.ChangeText (u "  Buy milk "); Home.Submit (u "id-1") (of_Z 1000);
              Home.ChangeText (u "   "); Home.Submit (u "id-2") (of_Z 2000);
              Home.StartEdit (Todo.mk (u "id-1") (u "Buy milk") false (of_Z 1000));
              Home.ChangeEditingText (u " Buy oat milk  ");
              Home.KeyDown (u "Enter") (u "id-1")] in
  Forall trimmed_text (Home.todos (Home.play evs (Home.init [])))
  /\ List.map Todo.text (Home.todos (Home.play evs (Home.init []))) = [u "Buy oat milk"].
Proof.
  intros evs. split; [|by vm_compute].
  apply (play_trimmed_texts evs (Home.init [])). constructor.
Defined.

(** ** Single handlers on a collection with unique ids *)

Lemma filter_remove_one (i : js_string) (ts : list Todo) :
  NoDup (ids ts) -> i ∈ ids ts ->
  S (length (List.filter (fun t => negb (str_eqb (Todo.id t) i)) ts)) = length ts.
Proof.
  induction ts as [|t ts IH]; intros Hnd Hin; [by apply elem_of_nil in Hin|].
  cbn [ids List.map] in Hnd, Hin. apply NoDup_cons in Hnd as [Hnotin Hnd].
  cbn [List.filter length]. unfold str_eqb at 1.
  destruct (decide (Todo.id t = i)) as [<-|Hne].
  - rewrite bool_decide_eq_true_2 by done. cbn [negb]. f_equal.
    f_equal. apply filter_all. intros x Hx. apply negb_true_iff, str_eqb_neq.
    intros Heq. apply Hnotin. rewrite <- Heq. unfold ids.
    apply list_elem_of_In, in_map, list_elem_of_In, Hx.
  - rewrite bool_decide_eq_false_2 by done. cbn [negb length]. f_equal.
    apply IH; [done|]. apply elem_of_cons in Hin as [?|?]; [congruence|done].
Qed.

(** X7.  On a collection with unique ids, deleting a task that is there
    makes the collection exactly one task shorter, and the id is gone. *)
Theorem removeTodo_removes_one (i : js_string) (st : Home.State) :
  NoDup (ids (Home.todos st)) -> i ∈ ids (Home.todos st) ->
  S (length (Home.todos (Home.removeTodo i st))) = length (Home.todos st)
  /\ i ∉ ids (Home.todos (Home.removeTodo i st)).
Proof.
  intros Hnd Hin. split; [by apply filter_remove_one|].
  cbn. unfold ids. intros Hi. apply list_elem_of_In, in_map_iff in Hi as (t & Hid & Ht).
  apply list_elem_of_In, filter_elem_of in Ht as [_ Ht].
  apply negb_true_iff, str_eqb_neq in Ht. done.
Qed.

Lemma removeTodo_removes_one_witness :
  let a := Todo.mk (u "a") (u "Walk dog") false (of_Z 2) in
  let b := Todo.mk (u "b") (u "Buy milk") true (of_Z 1) in
  let st := Home.init [a; b] in
  S (length (Home.todos (Home.removeTodo (u "b") st))) = 2%nat.
Proof.
  intros a b st.
  destruct (removeTodo_removes_one (u "b") st) as [H _].
  - apply (bool_decide_unpack _). by vm_compute.
  - apply (bool_decide_unpack _). by vm_compute.
  - exact H.
Defined.

Lemma unique_by_id (ts : list Todo) (x y : Todo) :
  NoDup (ids ts) -> x ∈ ts -> y ∈ ts -> Todo.id x = Todo.id y -> x = y.
Proof.
  induction ts as [|t ts IH]; intros Hnd Hx Hy Hid; [by apply elem_of_nil in Hx|].
  cbn [ids List.map] in Hnd. apply NoDup_cons in Hnd as [Hnotin Hnd].
  assert (forall z, z ∈ ts -> Todo.id z <> Todo.id t) as Hother.
  { intros z Hz Heq. apply Hnotin. rewrite <- Heq.
    apply list_elem_of_In, in_map, list_elem_of_In, Hz. }
  apply elem_of_cons in Hx as [->|Hx]; apply elem_of_cons in Hy as [->|Hy].
  - done.
  - exfalso. by apply (Hother y).
  - exfalso. by apply (Hother x).
  - by apply IH.
Qed.

Lemma toggle_other_ids (i : js_string) (ts : list Todo) :
  i ∉ ids ts ->
  List.map (fun t => if str_eqb (Todo.id t) i
                     then Todo.with_completed t (negb (Todo.completed t)) else t) ts = ts.
Proof.
  intros Hnotin. apply map_id_on. intros t Ht.
  destruct (str_eqb (Todo.id t) i) eqn:E; [|done].
  exfalso. apply Hnotin. apply bool_decide_eq_true in E. rewrite <- E.
  apply list_elem_of_In, in_map, list_elem_of_In, Ht.
Qed.

(** X8.  On a collection with unique ids, ticking the checkbox of a task
    moves the "left" counter by exactly one: down when the task was active,
    up when it was completed. *)
Theorem toggleTodo_moves_counter (t : Todo) (st : Home.State) :
  NoDup (ids (Home.todos st)) -> t ∈ Home.todos st ->
  (Todo.completed t = false ->
   S (Home.itemsLeft (Home.render (Home.toggleTodo (Todo.id t) st)))
   = Home.itemsLeft (Home.render st))
  /\ (Todo.completed t = true ->
      Home.itemsLeft (Home.render (Home.toggleTodo (Todo.id t) st))
      = S (Home.itemsLeft (Home.render st))).
Proof.
  destruct st as [ts x f ei et]. cbn. intros Hnd Hin.
  set (g := fun t' : Todo => if str_eqb (Todo.id t') (Todo.id t)
                             then Todo.with_completed t' (negb (Todo.completed t'))
                             else t').
  set (left := fun l : list Todo =>
                 length (List.filter (fun t' => negb (Todo.completed t')) l)).
  enough (left (List.map g ts) + (if Todo.completed t then 0 else 1)
          = left ts + (if Todo.completed t then 1 else 0))%nat as H.
  { fold (left (List.map g ts)) (left ts).
    split; intros Hc; rewrite Hc in H; lia. }
  induction ts as [|t0 ts IH]; [by apply elem_of_nil in Hin|].
  cbn [ids List.map] in Hnd. apply NoDup_cons in Hnd as [Hnotin Hnd].
  assert (forall l a, left (a :: l) = ((if Todo.completed a then 0 else 1) + left l)%nat)
    as Hleft by (intros l a; unfold left; cbn [List.filter]; by destruct (Todo.completed a)).
  cbn [List.map]. rewrite !Hleft.
  apply elem_of_cons in Hin as [->|Hin].
  - replace (List.map g ts) with ts
      by (symmetry; apply (toggle_other_ids _ ts Hnotin)).
    unfold g, str_eqb. rewrite bool_decide_eq_true_2 by done.
    cbn [Todo.with_completed Todo.completed]. destruct (Todo.completed t0); cbn; lia.
  - assert (Todo.id t0 <> Todo.id t) as Hne.
    { intros Heq. apply Hnotin. rewrite Heq.
      apply list_elem_of_In, in_map, list_elem_of_In, Hin. }
    replace (g t0) with t0 by (unfold g, str_eqb; by rewrite bool_decide_eq_false_2).
    specialize (IH Hnd Hin). lia.
Qed.

Lemma toggleTodo_moves_counter_witness :
  let a := Todo.mk (u "a") (u "Walk dog") false (of_Z 2) in
  let b := Todo.mk (u "b") (u "Buy milk") true (of_Z 1) in
  let st := Home.init [a; b] in
  Home.itemsLeft (Home.render (Home.toggleTodo (u "a") st)) = 0%nat
  /\ Home.itemsLeft (Home.render (Home.toggleTodo (u "b") st)) = 2%nat.
Proof.
  intros a b st.
  assert (NoDup (ids (Home.todos st))) as Hnd
    by (apply (bool_decide_unpack _); by vm_compute).
  split.
  - destruct (toggleTodo_moves_counter a st Hnd) as [H _]; [by left|].
    apply eq_add_S. exact (H eq_refl).
  - destruct (toggleTodo_moves_counter b st Hnd) as [_ H]; [right; by left|].
    exact (H eq_refl).
Defined.

(** X9.  Ticking and deleting rows can be done in either order: two toggles
    commute, two deletions commute, and a toggle commutes with a deletion,
    whatever the ids. *)
Theorem row_actions_commute (i j : js_string) (st : Home.State) :
  Home.toggleTodo i (Home.toggleTodo j st) = Home.toggleTodo j (Home.toggleTodo i st)
  /\ Home.removeTodo i (Home.removeTodo j st) = Home.removeTodo j (Home.removeTodo i st)
  /\ Home.removeTodo i (Home.toggleTodo j st) = Home.toggleTodo j (Home.removeTodo i st).
Proof.
  destruct st as [ts x f ei et].
  unfold Home.toggleTodo, Home.removeTodo, Home.setTodos. cbn.
  split; [|split]; f_equal.
  - rewrite !List.map_map. apply map_ext. intros t.
    destruct (str_eqb (Todo.id t) i) eqn:Ei, (str_eqb (Todo.id t) j) eqn:Ej;
      cbn [Todo.with_completed Todo.id Todo.completed]; rewrite ?Ei, ?Ej; done.
  - induction ts as [|t ts IH]; [done|]. cbn [List.filter].
    destruct (str_eqb (Todo.id t) i) eqn:Ei, (str_eqb (Todo.id t) j) eqn:Ej;
      cbn [negb List.filter]; rewrite ?Ei, ?Ej; cbn [negb]; by rewrite ?IH.
  - induction ts as [|t ts IH]; [done|]. cbn [List.map List.filter].
    destruct (str_eqb (Todo.id t) j) eqn:Ej;
      cbn [Todo.with_completed Todo.id];
      destruct (str_eqb (Todo.id t) i) eqn:Ei; cbn [negb List.map];
      rewrite ?Ej; by rewrite IH.
Qed.

(** X10.  Opening a task for editing and saving without a change leaves the
    collection as it is, when ids are unique and the text of the task is
    trimmed and not empty. *)
Theorem edit_without_change (t : Todo) (st : Home.State) :
  NoDup (ids (Home.todos st)) -> t ∈ Home.todos st -> trimmed_text t ->
  Home.todos (Home.saveEdit (Todo.id t) (Home.startEdit t st)) = Home.todos st
  /\ Home.editingId (Home.saveEdit (Todo.id t) (Home.startEdit t st)) = None.
Proof.
  intros Hnd Hin [Hne Htrim]. unfold Home.saveEdit.
  replace (Home.editingText (Home.startEdit t st)) with (Todo.text t) by done.
  rewrite Htrim. apply truthy_string_nonempty in Hne. rewrite Hne. cbn.
  split; [|done]. apply map_id_on. intros x Hx.
  destruct (str_eqb (Todo.id x) (Todo.id t)) eqn:E; [|done].
  apply bool_decide_eq_true in E.
  rewrite (unique_by_id _ x t Hnd Hx Hin E). by destruct t.
Qed.

Lemma edit_without_change_witness :
  let a := Todo.mk (u "a") (u "Walk dog") false (of_Z 2) in
  let b := Todo.mk (u "b") (u "Buy milk") true (of_Z 1) in
  let st := Home.init [a; b] in
  Home.todos (Home.saveEdit (u "b") (Home.startEdit b st)) = [a; b].
Proof.
  intros a b st. apply (edit_without_change b st).
  - apply (bool_decide_unpack _). by vm_compute.
  - right. by left.
  - split; by vm_compute.
Defined.

Lemma play_editing_text (vs : list js_string) (st : Home.State) :
  Home.cancelEdit (Home.play (List.map Home.ChangeEditingText vs) st) = Home.cancelEdit st.
Proof.
  revert st. induction vs as [|v vs IH]; intros st; [done|].
  cbn [List.map]. change (Home.play (?ev :: ?evs) st) with (Home.play evs (Home.handle ev st)).
  by rewrite IH.
Qed.

Lemma play_app (evs evs' : list Home.Event) (st : Home.State) :
  Home.play (evs ++ evs') st = Home.play evs' (Home.play evs st).
Proof. apply fold_left_app. Qed.

(** X11.  Leaving an edit with Escape or with the Cancel button undoes it:
    after opening any task and typing anything into the edit box, the state
    is the one before with the edit state cleared; the collection, the input
    box and the filter are untouched. *)
Theorem edit_then_cancel (t : Todo) (vs : list js_string) (i : js_string) (st : Home.State) :
  Home.play (Home.StartEdit t :: List.map Home.ChangeEditingText vs
             ++ [Home.KeyDown (u "Escape") i]) st = Home.cancelEdit st
  /\ Home.play (Home.StartEdit t :: List.map Home.ChangeEditingText vs
                ++ [Home.ClickCancel]) st = Home.cancelEdit st
  /\ Home.todos (Home.cancelEdit st) = Home.todos st
  /\ Home.text (Home.cancelEdit st) = Home.text st
  /\ Home.filter (Home.cancelEdit st) = Home.filter st.
Proof.
  assert (forall ev, (forall s, Home.handle ev s = Home.cancelEdit s) ->
            Home.play (Home.StartEdit t :: List.map Home.ChangeEditingText vs ++ [ev]) st
            = Home.cancelEdit st) as H.
  { intros ev Hev.
    change (Home.play (?e :: ?evs) st) with (Home.play evs (Home.handle e st)).
    rewrite play_app. cbn [Home.play fold_left]. rewrite Hev, play_editing_text.
    by destruct st. }
  split; [|split; [|done]].
  - apply H. intros s. cbn [Home.handle].
    by destruct (onKeyDown_cases (u "Escape") i s) as [[E _]|[[_ ->]|(_ & E & _)]].
  - by apply H.
Qed.

(** X12.  Adding a task and deleting it again gives back the collection,
    when the new identifier is not among the ids already there. *)
Theorem add_then_delete (uuid : js_string) (now : number) (st : Home.State) :
  uuid ∉ ids (Home.todos st) ->
  Home.todos (Home.removeTodo uuid (Home.addTodo uuid now st)) = Home.todos st.
Proof.
  intros Hfresh.
  assert (List.filter (fun t => negb (str_eqb (Todo.id t) uuid)) (Home.todos st)
          = Home.todos st) as Hrest.
  { apply filter_all. intros t Ht. apply negb_true_iff, str_eqb_neq.
    intros Heq. apply Hfresh. rewrite <- Heq.
    apply list_elem_of_In, in_map, list_elem_of_In, Ht. }
  unfold Home.addTodo. destruct (negb (truthy_string (trim (Home.text st)))); cbn.
  - exact Hrest.
  - unfold str_eqb at 1. by rewrite bool_decide_eq_true_2.
Qed.

Lemma add_then_delete_witness :
  let a := Todo.mk (u "a") (u "Walk dog") false (of_Z 2) in
  let st := Home.setText (u "Buy milk") (Home.init [a]) in
  Home.todos (Home.removeTodo (u "b") (Home.addTodo (u "b") (of_Z 3) st)) = [a].
Proof.
  intros a st. apply (add_then_delete (u "b") (of_Z 3) st).
  apply (bool_decide_unpack _). by vm_compute.
Defined.

(** * What is rendered *)

Lemma filter_length_split {A} (f : A -> bool) (l : list A) :
  (length (List.filter f l) + length (List.filter (fun x => negb (f x)) l))%nat = length l.
Proof.
  induction l as [|x l IH]; [done|]. cbn [List.filter].
  destruct (f x); cbn [negb length]; lia.
Qed.

(** X13.  The "left" counter and the number of completed tasks add up to
    the size of the collection, and the counter is the number of rows shown
    under the filter "active". *)
Theorem itemsLeft_counts (st : Home.State) :
  (Home.itemsLeft (Home.render st)
   + length (List.filter Todo.completed (Home.todos st)))%nat = length (Home.todos st)
  /\ Home.itemsLeft (Home.render st)
     = length (Home.rows (Home.render (Home.setFilter Home.active st))).
Proof.
  split.
  - cbn. rewrite <- (filter_length_split (fun t => negb (Todo.completed t)) (Home.todos st)).
    f_equal. f_equal. apply filter_ext. intros t. by rewrite negb_involutive.
  - cbn. by rewrite length_map.
Qed.

Lemma nothing_completed (ts : list Todo) :
  negb (existsb Todo.completed ts) = true
  <-> List.filter (fun t => negb (Todo.completed t)) ts = ts.
Proof.
  induction ts as [|t ts IH]; [done|]. cbn [existsb List.filter].
  destruct (Todo.completed t) eqn:Ec; cbn [orb negb].
  - split; [done|]. intros Heq.
    pose proof (filter_sublist (fun t => negb (Todo.completed t)) ts) as Hs.
    apply sublist_length in Hs. rewrite Heq in Hs. cbn in Hs. lia.
  - rewrite IH. split; [by intros ->|by intros [= ->]].
Qed.

Lemma filter_keeps_all {A} (f : A -> bool) (l : list A) :
  List.filter f l = l <-> length (List.filter f l) = length l.
Proof.
  split; [by intros ->|].
  induction l as [|x l IH]; [done|]. cbn [List.filter].
  pose proof (filter_sublist f l) as Hs. apply sublist_length in Hs.
  destruct (f x); cbn [length]; intros Hlen; [|lia].
  f_equal. apply IH. lia.
Qed.

(** X14.  The "Clear completed" button is disabled exactly when clearing
    would change nothing, that is when every task is still to do; and a
    click on it leaves the collection [clearCompleted] leaves, disabled or
    not. *)
Theorem clear_button (st : Home.State) :
  (Home.clearIsDisabled (Home.render st) = true
   <-> Home.todos (Home.clearCompleted st) = Home.todos st)
  /\ (Home.clearIsDisabled (Home.render st) = true
      <-> Home.itemsLeft (Home.render st) = length (Home.todos st))
  /\ Home.todos (Home.handle Home.ClickClearCompleted st)
     = Home.todos (Home.clearCompleted st).
Proof.
  destruct st as [ts x f ei et]. cbn. unfold Home.clearDisabled. cbn.
  pose proof (nothing_completed ts) as H1.
  pose proof (filter_keeps_all (fun t => negb (Todo.completed t)) ts) as H2.
  split; [exact H1|]. split; [by rewrite H1, H2|].
  destruct (negb (existsb Todo.completed ts)) eqn:E; cbn; [|done].
  symmetry. by apply H1.
Qed.

Lemma visible_ids_sublist (st : Home.State) :
  ids (Home.visible st) `sublist_of` ids (Home.todos st).
Proof. apply sublist_map, filter_sublist. Qed.

(** X15.  The rows follow the visible tasks one for one, a row's React key
    is the id of its task and its checkbox shows the completed flag; so the
    keys are a subsequence of the ids of the collection, and no two rows
    share a key when no two tasks share an id. *)
Theorem row_keys (st : Home.State) :
  List.map Home.key (Home.rows (Home.render st)) = ids (Home.visible st)
  /\ List.map Home.checked (Home.rows (Home.render st))
     = List.map Todo.completed (Home.visible st)
  /\ List.map Home.key (Home.rows (Home.render st)) `sublist_of` ids (Home.todos st)
  /\ (NoDup (ids (Home.todos st)) -> NoDup (List.map Home.key (Home.rows (Home.render st)))).
Proof.
  assert (List.map Home.key (Home.rows (Home.render st)) = ids (Home.visible st)) as Hk.
  { cbn [Home.render Home.rows]. by rewrite List.map_map. }
  split; [done|]. split; [cbn [Home.render Home.rows]; by rewrite List.map_map|].
  rewrite Hk. split; [apply visible_ids_sublist|].
  intros Hnd. exact (sublist_NoDup _ _ Hnd (visible_ids_sublist st)).
Qed.

Lemma row_keys_witness :
  let a := Todo.mk (u "a") (u "Walk dog") false (of_Z 2) in
  let b := Todo.mk (u "b") (u "Buy milk") true (of_Z 1) in
  let st := Home.setFilter Home.completed (Home.init [a; b]) in
  NoDup (List.map Home.key (Home.rows (Home.render st))).
Proof.
  intros a b st. destruct (row_keys st) as (_ & _ & _ & H).
  apply H. apply (bool_decide_unpack _). by vm_compute.
Defined.

Lemma filter_none {A} (f : A -> bool) (l : list A) :
  (forall x, x ∈ l -> f x = false) -> List.filter f l = [].
Proof.
  induction l as [|x l IH]; intros H; [done|].
  cbn [List.filter]. rewrite (H x) by left. apply IH. intros y Hy. apply H. by right.
Qed.

Lemma filter_of_map {A B} (g : A -> B) (f : B -> bool) (l : list A) :
  List.filter f (List.map g l) = List.map g (List.filter (fun x => f (g x)) l).
Proof.
  induction l as [|x l IH]; [done|]. cbn [List.map List.filter].
  destruct (f (g x)); cbn [List.map]; by rewrite IH.
Qed.

Lemma at_most_one_with_id (e : js_string) (ts : list Todo) :
  NoDup (ids ts) ->
  (length (List.filter (fun t => str_eqb e (Todo.id t)) ts) <= 1)%nat.
Proof.
  induction ts as [|t ts IH]; intros Hnd; [cbn; lia|].
  cbn [ids List.map] in Hnd. apply NoDup_cons in Hnd as [Hnotin Hnd].
  cbn [List.filter]. destruct (str_eqb e (Todo.id t)) eqn:E; [|by apply IH].
  apply bool_decide_eq_true in E. subst e.
  rewrite filter_none; [cbn; lia|].
  intros x Hx. apply bool_decide_eq_false.
  intros Heq. apply Hnotin. rewrite Heq.
  apply list_elem_of_In, in_map, list_elem_of_In, Hx.
Qed.

(** X16.  When no two tasks share an id, at most one row is in edit mode;
    none is when no edit is open; and a row in edit mode shows the working
    text, never struck through. *)
Theorem editing_rows (st : Home.State) :
  (NoDup (ids (Home.todos st)) ->
   (length (List.filter Home.editing (Home.rows (Home.render st))) <= 1)%nat)
  /\ (Home.editingId st = None ->
      List.filter Home.editing (Home.rows (Home.render st)) = [])
  /\ (forall r, r ∈ Home.rows (Home.render st) -> Home.editing r = true ->
        Home.content r = Home.editingText st /\ Home.lineThrough r = false).
Proof.
  cbn [Home.render Home.rows]. split; [|split].
  - intros Hnd.
    assert (NoDup (ids (Home.visible st))) as Hv
      by exact (sublist_NoDup _ _ Hnd (visible_ids_sublist st)).
    rewrite filter_of_map, length_map.
    unfold Home.row, Home.isEditing. cbn [Home.editing].
    destruct (Home.editingId st) as [e|].
    + by apply at_most_one_with_id.
    + rewrite filter_none by done. cbn. lia.
  - intros Hnone. rewrite filter_of_map, filter_none; [done|].
    intros t _. cbn. unfold Home.isEditing. by rewrite Hnone.
  - intros r Hr Hed. apply list_elem_of_In, in_map_iff in Hr as (t & <- & _).
    cbn in *. by rewrite Hed.
Qed.

Lemma editing_rows_witness :
  let a := Todo.mk (u "a") (u "Walk dog") false (of_Z 2) in
  let b := Todo.mk (u "b") (u "Buy milk") true (of_Z 1) in
  let st := Home.setEditingText (u "Buy oat milk") (Home.startEdit b (Home.init [a; b])) in
  (length (List.filter Home.editing (Home.rows (Home.render st))) <= 1)%nat
  /\ List.map Home.content (Home.rows (Home.render st)) = [u "Walk dog"; u "Buy oat milk"].
Proof.
  intros a b st. split; [|by vm_compute].
  destruct (editing_rows st) as (H & _). apply H.
  apply (bool_decide_unpack _). by vm_compute.
Defined.

Lemma filter_after_toggle (i : js_string) (p : Todo -> bool) (g : Todo -> Todo)
    (ts : list Todo) :
  (forall x, x ∈ ts -> Todo.id x = i -> p x = true /\ p (g x) = false) ->
  (forall x, Todo.id x <> i -> g x = x) ->
  List.filter p (List.map g ts)
  = List.filter (fun x => negb (str_eqb (Todo.id x) i)) (List.filter p ts).
Proof.
  intros Hi Hother. set (q := fun x => negb (str_eqb (Todo.id x) i)).
  induction ts as [|x ts IH]; [done|].
  cbn [List.map List.filter].
  rewrite IH by (intros y Hy; apply Hi; by right).
  destruct (decide (Todo.id x = i)) as [Hx|Hx].
  - destruct (Hi x) as [Hpx Hpg]; [by left|done|]. rewrite Hpx, Hpg. cbn [List.filter].
    by replace (q x) with false
      by (unfold q, str_eqb; by rewrite bool_decide_eq_true_2).
  - rewrite (Hother x Hx). destruct (p x); [|done]. cbn [List.filter].
    by replace (q x) with true
      by (unfold q, str_eqb; by rewrite bool_decide_eq_false_2).
Qed.

(** X17.  Under the filter "active" or "completed", ticking the checkbox of
    a visible task takes its row out of the view and leaves the other rows
    as they are, when ids are unique; under "all" the rows keep their
    keys. *)
Theorem toggle_under_filter (t : Todo) (st : Home.State) :
  (NoDup (ids (Home.todos st)) -> Home.filter st <> Home.all -> t ∈ Home.visible st ->
   Home.visible (Home.toggleTodo (Todo.id t) st)
   = List.filter (fun x => negb (str_eqb (Todo.id x) (Todo.id t))) (Home.visible st)
   /\ S (length (Home.rows (Home.render (Home.toggleTodo (Todo.id t) st))))
      = length (Home.rows (Home.render st)))
  /\ (Home.filter st = Home.all ->
      List.map Home.key (Home.rows (Home.render (Home.toggleTodo (Todo.id t) st)))
      = List.map Home.key (Home.rows (Home.render st))).
Proof.
  split.
  - intros Hnd Hf Hvis.
    assert (t ∈ Home.todos st /\ (match Home.filter st with
                                   | Home.all => true
                                   | Home.active => negb (Todo.completed t)
                                   | Home.completed => Todo.completed t
                                   end) = true) as [Hin Hp]
      by (by apply filter_elem_of in Hvis).
    assert (Home.visible (Home.toggleTodo (Todo.id t) st)
            = List.filter (fun x => negb (str_eqb (Todo.id x) (Todo.id t))) (Home.visible st))
      as Heq.
    { unfold Home.visible. cbn [Home.toggleTodo Home.setTodos Home.todos Home.filter].
      apply filter_after_toggle.
      - intros x Hx Hid. rewrite (unique_by_id _ x t Hnd Hx Hin Hid).
        unfold str_eqb. rewrite bool_decide_eq_true_2 by done.
        destruct (Home.filter st); [done| |]; cbn in *; destruct (Todo.completed t); done.
      - intros x Hx. unfold str_eqb. by rewrite bool_decide_eq_false_2. }
    split; [exact Heq|].
    cbn [Home.render Home.rows]. rewrite !length_map, Heq.
    apply filter_remove_one.
    + exact (sublist_NoDup _ _ Hnd (visible_ids_sublist st)).
    + apply list_elem_of_In, in_map, list_elem_of_In, Hvis.
  - intros Hall. cbn [Home.render Home.rows]. rewrite !List.map_map.
    unfold Home.visible. cbn [Home.toggleTodo Home.setTodos Home.todos Home.filter].
    rewrite Hall, !filter_all by done. rewrite List.map_map.
    apply map_ext. intros x. cbn. by destruct (str_eqb (Todo.id x) (Todo.id t)).
Qed.

Lemma toggle_under_filter_witness :
  let a := Todo.mk (u "a") (u "Walk dog") false (of_Z 2) in
  let b := Todo.mk (u "b") (u "Buy milk") false (of_Z 1) in
  let st := Home.setFilter Home.active (Home.init [a; b]) in
  Home.visible (Home.toggleTodo (u "b") st) = [a].
Proof.
  intros a b st. destruct (toggle_under_filter b st) as [H _].
  destruct H as [H _].
  - apply (bool_decide_unpack _). by vm_compute.
  - done.
  - right. by left.
  - refine (eq_trans H _). by vm_compute.
Defined.

(** X18.  A task that is added shows as the first row under the filters
    "all" and "active" and does not show under "completed". *)
Theorem added_task_in_view (uuid : js_string) (now : number) (st : Home.State) :
  trim (Home.text st) <> [] ->
  let t := Todo.mk uuid (trim (Home.text st)) false now in
  Home.visible (Home.addTodo uuid now st)
  = match Home.filter st with
    | Home.completed => Home.visible st
    | _ => t :: Home.visible st
    end.
Proof.
  intros Hne t. unfold Home.addTodo.
  apply truthy_string_nonempty in Hne. rewrite Hne. cbn [negb].
  unfold Home.visible. cbn [Home.setText Home.setTodos Home.todos Home.filter List.filter].
  by destruct (Home.filter st).
Qed.

Lemma added_task_in_view_witness :
  let a := Todo.mk (u "a") (u "Walk dog") true (of_Z 2) in
  let st := Home.setText (u " Buy milk") (Home.setFilter Home.completed (Home.init [a])) in
  Home.visible (Home.addTodo (u "b") (of_Z 3) st) = [a].
Proof.
  intros a st. rewrite (added_task_in_view (u "b") (of_Z 3) st); by vm_compute.
Defined.

(** * Events and the saving effect *)

Lemma saveTodos_accepted (ts : list Todo) (w : World) :
  fst (localStorage.setItem STORAGE_KEY (JSON.stringify (todos_value ts)) w) = Normal tt ->
  stored (snd (saveTodos ts w)) = Some (JSON.stringify (todos_value ts))
  /\ console (snd (saveTodos ts w)) = console w.
Proof.
  unfold saveTodos, try_catch, localStorage.setItem, stored.
  destruct (accessible (storage w)); [|done].
  destruct (_ <=? _)%nat; [|done]. intros _. cbn. split; [|done]. apply lookup_insert_eq.
Qed.

Lemma saveTodos_rejected (ts : list Todo) (w : World) :
  fst (localStorage.setItem STORAGE_KEY (JSON.stringify (todos_value ts)) w) <> Normal tt ->
  storage (snd (saveTodos ts w)) = storage w
  /\ exists e, console (snd (saveTodos ts w)) = console w ++ [(u "Failed to save todos", e)].
Proof.
  unfold saveTodos, try_catch, localStorage.setItem, console.warn.
  destruct (accessible (storage w)); cbn; [|eauto].
  destruct (_ <=? _)%nat; cbn; [done|eauto].
Qed.

Lemma step_state (ev : Home.Event) (st : Home.State) (w : World) :
  fst (Home.step ev st w) = Normal (Home.handle ev st)
  /\ snd (Home.step ev st w)
     = if Home.setsTodos ev st then snd (saveTodos (Home.todos (Home.handle ev st)) w) else w.
Proof.
  unfold Home.step. destruct (Home.setsTodos ev st); [|done].
  unfold bind, ret.
  destruct (saveTodos_completes (Home.todos (Home.handle ev st)) w) as (w' & -> & _). done.
Qed.

(** An event that does not call [setTodos] leaves the collection as it
    is. *)
Lemma handle_without_setTodos (ev : Home.Event) (st : Home.State) :
  Home.setsTodos ev st = false -> Home.todos (Home.handle ev st) = Home.todos st.
Proof.
  destruct ev as [uuid now|v|f| |i|todo|v|key i|i| |i];
    cbn [Home.setsTodos Home.handle]; try done.
  - intros H. unfold Home.addTodo. by rewrite H.
  - intros H%negb_false_iff. by rewrite H.
  - intros H. apply bool_decide_eq_false in H.
    by destruct (onKeyDown_cases key i st) as [[? _]|[[_ ->]|(_ & _ & ->)]].
Qed.

(** X19.  One event never throws, whatever the storage does.  An event that
    does not change the collection does not touch the storage or the
    console.  After one that does, a write the storage accepts makes a load
    return the new collection, and a write it rejects leaves the storage as
    it was and adds a "Failed to save todos" line to the console. *)
Theorem step_saves (ev : Home.Event) (st : Home.State) (w : World) :
  let st' := Home.handle ev st in
  let w' := snd (Home.step ev st w) in
  let write := fst (localStorage.setItem STORAGE_KEY
                      (JSON.stringify (todos_value (Home.todos st'))) w) in
  fst (Home.step ev st w) = Normal st'
  /\ (Home.setsTodos ev st = false -> w' = w /\ Home.todos st' = Home.todos st)
  /\ (Home.setsTodos ev st = true -> write = Normal tt ->
      Forall (fun t => normal_finite (Todo.createdAt t) = true) (Home.todos st') ->
      loadTodos w' = (Normal (todos_value (Home.todos st')), w'))
  /\ (Home.setsTodos ev st = true -> write <> Normal tt ->
      storage w' = storage w
      /\ exists e, console w' = console w ++ [(u "Failed to save todos", e)]).
Proof.
  intros st' w' write. destruct (step_state ev st w) as [Hst Hw].
  subst st' w' write. rewrite Hw. split; [done|]. split; [|split].
  - intros Hs. rewrite Hs. split; [done|]. by apply handle_without_setTodos.
  - intros Hs Hwrite Hnum. rewrite Hs.
    destruct (saveTodos_accepted _ _ Hwrite) as [Hstored _].
    apply (loadTodos_parsed _ _ _ Hstored). by apply parse_stringify_todos.
  - intros Hs Hwrite. rewrite Hs. by apply saveTodos_rejected.
Qed.

Lemma step_saves_witness :
  let a := Todo.mk (u "a") (u "Walk dog") false (of_Z 2) in
  let st := Home.init [a] in
  let w := {| storage := {| accessible := true; quota := 5000; items := ∅ |};
              console := [] |} in
  let blocked := {| storage := {| accessible := false; quota := 5000; items := ∅ |};
                    console := [] |} in
  fst (loadTodos (snd (Home.step (Home.ChangeCheckbox (u "a")) st w)))
  = Normal (todos_value [Todo.mk (u "a") (u "Walk dog") true (of_Z 2)])
  /\ snd (Home.step (Home.ClickFilter Home.active) st w) = w
  /\ storage (snd (Home.step (Home.ChangeCheckbox (u "a")) st blocked)) = storage blocked.
Proof.
  intros a st w blocked. split; [|split].
  - destruct (step_saves (Home.ChangeCheckbox (u "a")) st w) as (_ & _ & H & _).
    rewrite H; [done|done|by vm_compute|repeat constructor].
  - destruct (step_saves (Home.ClickFilter Home.active) st w) as (_ & H & _).
    by apply H.
  - destruct (step_saves (Home.ChangeCheckbox (u "a")) st blocked) as (_ & _ & _ & H).
    by apply H.
Defined.

(** X20.  Over a whole run the state in memory is the one the handlers
    alone lead to: no failure of the storage changes it or stops the run;
    the console only grows. *)
Theorem run_state (evs : list Home.Event) (st : Home.State) (w : World) :
  fst (Home.run evs st w) = Normal (Home.play evs st)
  /\ exists lines, console (snd (Home.run evs st w)) = console w ++ lines.
Proof.
  revert st w. induction evs as [|ev evs IH]; intros st w.
  - split; [done|]. exists []. cbn. by rewrite app_nil_r.
  - change (Home.play (ev :: evs) st) with (Home.play evs (Home.handle ev st)).
    cbn [Home.run]. unfold bind.
    destruct (step_state ev st w) as [Hst Hw].
    destruct (Home.step ev st w) as [r w1]. cbn in Hst, Hw. subst r.
    destruct (IH (Home.handle ev st) w1) as [IH1 (lines & IH2)].
    split; [done|]. rewrite IH2.
    assert (exists l1, console w1 = console w ++ l1) as [l1 ->].
    { rewrite Hw. destruct (Home.setsTodos ev st); [|exists []; by rewrite app_nil_r].
      destruct (saveTodos_completes (Home.todos (Home.handle ev st)) w) as (w' & Hs & [Hsame|Hnew]).
      - rewrite Hs. cbn.
        unfold saveTodos, try_catch, localStorage.setItem, console.warn in Hs.
        destruct (accessible (storage w)); [destruct (_ <=? _)%nat|]; injection Hs as <-;
          cbn; eauto; exists []; by rewrite app_nil_r.
      - rewrite Hs. cbn.
        unfold saveTodos, try_catch, localStorage.setItem, console.warn in Hs.
        destruct (accessible (storage w)); [destruct (_ <=? _)%nat|]; injection Hs as <-;
          cbn; eauto; exists []; by rewrite app_nil_r. }
    exists (l1 ++ lines). by rewrite app_assoc.
Qed.

(** X21.  In the edit box the key Enter does what the Save button does, the
    key Escape does what the Cancel button does, and every other key leaves
    the state as it is. *)
Theorem keyDown_keys (key i : js_string) (st : Home.State) :
  Home.handle (Home.KeyDown (u "Enter") i) st = Home.handle (Home.ClickSave i) st
  /\ Home.handle (Home.KeyDown (u "Escape") i) st = Home.handle Home.ClickCancel st
  /\ (key <> u "Enter" -> key <> u "Escape" ->
      Home.handle (Home.KeyDown key i) st = st).
Proof.
  cbn [Home.handle]. split; [|split].
  - by destruct (onKeyDown_cases (u "Enter") i st) as [[_ ->]|[[E _]|(E & _)]].
  - by destruct (onKeyDown_cases (u "Escape") i st) as [[E _]|[[_ ->]|(_ & E & _)]].
  - intros H1 H2.
    by destruct (onKeyDown_cases key i st) as [[? _]|[[? _]|(_ & _ & ->)]].
Qed.

Lemma keyDown_keys_witness :
  let a := Todo.mk (u "a") (u "Walk dog") false (of_Z 2) in
  let st := Home.setEditingText (u "Walk the dog") (Home.startEdit a (Home.init [a])) in
  Home.handle (Home.KeyDown (u "Tab") (u "a")) st = st.
Proof.
  intros a st. destruct (keyDown_keys (u "Tab") (u "a") st) as (_ & _ & H).
  apply H; intros E; vm_compute in E; discriminate.
Defined.
